(** * pyo-oscillators: the breakpoint and the triangle oscillator

    The two classes of the repository, [BrkPntOsc] (brkpntosc.py) and
    [TriOsc] (triosc.py), compose primitive signal objects of the pyo
    engine into a waveform and expose setters and lifecycle operations.

    The development has three layers:
    - the engine as the classes use it: a store of signal objects, each
      with the node it computes and its activation state, the record of
      the lifecycle calls received, and the value a node computes for
      one sample;
    - the two classes, method by method, in a state monad over the
      engine;
    - the properties of the waveforms and of the methods.

    Sample values are rationals and the arithmetic on them is exact: the
    rounding of the engine's floating-point numbers is not modelled. *)

From Stdlib Require Import QArith Qminmax Lqa ZArith.
From stdpp Require Import list strings.

(** ** The engine

    The engine is the pyo library, which the two modules import and the
    repository does not contain.  It appears here as the contract the
    classes rely on: signal objects that are created, combined by
    arithmetic and comparison, given new parameters, and started, stopped
    and sent to the output. *)

(** An engine object is known by its position in the store. *)
Abbreviation oid := nat.

(** A parameter of a signal object: "float or PyoObject". *)
Inductive arg :=
| Num (x : Q)
| Obj (o : oid).

(** The arithmetic operators of [PyoObject]: each builds a new signal
    object out of its two operands. *)
Inductive binop := Add | Sub | Mul | Div.

(** The comparisons the classes use: [<] and [>=], each a signal that is 1
    where the comparison holds and 0 elsewhere. *)
Inductive cmpmode := Lt | Ge.

(** What a signal object computes.  [Phasor], [Sig], [Min] and [Compare]
    are the engine's classes of these names; [Arith] is the object an
    arithmetic operator returns; [Ugen] is any other generator a caller may
    hand in as a parameter (the [Sine] of the module's test case). *)
Inductive node :=
| Phasor (freq phase : arg)
| Sig (value mul add : arg)
| Arith (op : binop) (a b : arg)
| Compare (mode : cmpmode) (input comp : arg)
| Min (input comp mul add : arg)
| Ugen.

(** The activation state of an object. *)
Inductive status := Stopped | Playing | Outputting.

Definition is_active (st : status) : bool :=
  match st with Stopped => false | _ => true end.

(** A lifecycle call as an object receives it. *)
Inductive call :=
| CallPlay (dur delay : Q)
| CallStop
| CallOut (chnl : Z) (dur delay : Q).

Record object := MkObject { obj_node : node; obj_status : status }.

(** The engine: its objects, and the lifecycle calls made so far, oldest
    first. *)
Record server := MkServer {
  objects : list object;
  calls : list (oid * call)
}.

Definition empty_server : server := MkServer [] [].

Definition node_at (sv : server) (o : oid) : option node :=
  obj_node <$> objects sv !! o.

Definition status_at (sv : server) (o : oid) : option status :=
  obj_status <$> objects sv !! o.

(** ** Computations on the engine *)

Definition M (A : Type) : Type := server -> A * server.

Definition ret {A} (a : A) : M A := fun sv => (a, sv).

Definition bind {A B} (m : M A) (k : A -> M B) : M B :=
  fun sv => let (a, sv') := m sv in k a sv'.

Declare Scope engine_scope.
Delimit Scope engine_scope with engine.
Notation "x <- m ;; k" := (bind m (fun x => k))
  (at level 100, m at next level, right associativity) : engine_scope.
Notation "m ;; k" := (bind m (fun _ => k))
  (at level 100, right associativity) : engine_scope.
Local Open Scope engine_scope.

(** A loop that runs its body on every element, in order. *)
Fixpoint for_each {A} (l : list A) (body : A -> M unit) : M unit :=
  match l with
  | [] => ret tt
  | a :: l' => body a ;; for_each l' body
  end.

(** Creating a signal object: it takes the next free position and, as
    every object of the engine, starts processing at once. *)
Definition new (n : node) : M oid :=
  fun sv =>
    (length (objects sv),
     MkServer (objects sv ++ [MkObject n Playing]) (calls sv)).

Definition set_node (f : node -> node) (o : oid) : M unit :=
  fun sv =>
    (tt, MkServer (alter (fun ob => MkObject (f (obj_node ob)) (obj_status ob))
                         o (objects sv))
                  (calls sv)).

(** A lifecycle call on one object: the call is recorded and the object
    takes the new state. *)
Definition lifecycle (c : call) (st : status) (o : oid) : M unit :=
  fun sv =>
    (tt, MkServer (alter (fun ob => MkObject (obj_node ob) st) o (objects sv))
                  (calls sv ++ [(o, c)])).

Definition obj_play (dur delay : Q) (o : oid) : M unit :=
  lifecycle (CallPlay dur delay) Playing o.

Definition obj_stop (o : oid) : M unit :=
  lifecycle CallStop Stopped o.

Definition obj_out (chnl : Z) (dur delay : Q) (o : oid) : M unit :=
  lifecycle (CallOut chnl dur delay) Outputting o.

(** The setters of the engine's classes that the oscillators call. *)
Definition Phasor_setFreq (o : oid) (x : arg) : M unit :=
  set_node (fun n => match n with Phasor _ ph => Phasor x ph | _ => n end) o.

Definition Phasor_setPhase (o : oid) (x : arg) : M unit :=
  set_node (fun n => match n with Phasor f _ => Phasor f x | _ => n end) o.

Definition Sig_setValue (o : oid) (x : arg) : M unit :=
  set_node (fun n => match n with Sig _ m a => Sig x m a | _ => n end) o.

(** ** The base class

    What the oscillators inherit from [PyoObject]: the [mul] and [add]
    attributes the base constructor stores, and the lifecycle operations,
    which act on the objects of [_base_objs] and on nothing else. *)
Class PyoObject (T : Type) := {
  base_objs : T -> list oid
}.

Section BaseClass.
Context {T : Type} `{PyoObject T}.

Definition PyoObject_play (self : T) (dur delay : Q) : M T :=
  for_each (base_objs self) (obj_play dur delay) ;; ret self.

Definition PyoObject_stop (self : T) : M T :=
  for_each (base_objs self) obj_stop ;; ret self.

(** Base object number [i] goes to channel [chnl + i * inc]. *)
Definition PyoObject_out (self : T) (chnl inc : Z) (dur delay : Q) : M T :=
  for_each (imap (fun i o => (i, o)) (base_objs self))
           (fun '(i, o) => obj_out (chnl + Z.of_nat i * inc) dur delay o) ;;
  ret self.

End BaseClass.

(** [getBaseObjects]: an object of the engine's own classes is its own
    base object. *)
Definition getBaseObjects (o : oid) : list oid := [o].

(** ** The value of a signal for one sample

    [gen o] is the sample that generator [o] (a [Phasor], or a generator
    handed in by the caller) delivers; every other object computes its
    sample from those of its inputs.  The recursion follows the references
    between objects and is bounded by [fuel]. *)
Inductive sample :=
| Val (x : Q)
| DivByZero
| NoValue.

Definition sbind (r : sample) (k : Q -> sample) : sample :=
  match r with
  | Val x => k x
  | DivByZero => DivByZero
  | NoValue => NoValue
  end.

Notation "x <~ r ;; k" := (sbind r (fun x => k))
  (at level 100, r at next level, right associativity) : engine_scope.

Local Open Scope Q_scope.

(** A comparison yields 1 or 0. *)
Definition compare (mode : cmpmode) (x y : Q) : Q :=
  match mode with
  | Lt => if Qlt_le_dec x y then 1 else 0
  | Ge => if Qlt_le_dec x y then 0 else 1
  end.

(** The model assigns no value to a quotient whose divisor is zero. *)
Definition arith (op : binop) (x y : Q) : sample :=
  match op with
  | Add => Val (x + y)
  | Sub => Val (x - y)
  | Mul => Val (x * y)
  | Div => if Qeq_dec y 0 then DivByZero else Val (x / y)
  end.

(** What one object computes from the samples [ev] of its parameters;
    [g] is the sample the object delivers when it is a generator. *)
Definition node_value (ev : arg -> sample) (g : Q) (n : node) : sample :=
  match n with
  | Phasor _ _ => Val g
  | Ugen => Val g
  | Sig value mul add =>
      x <~ ev value ;; m <~ ev mul ;; a <~ ev add ;; Val (x * m + a)
  | Arith op a b =>
      x <~ ev a ;; y <~ ev b ;; arith op x y
  | Compare mode input comp =>
      x <~ ev input ;; y <~ ev comp ;; Val (compare mode x y)
  | Min input comp mul add =>
      x <~ ev input ;; y <~ ev comp ;; m <~ ev mul ;; a <~ ev add ;;
      Val (Qmin x y * m + a)
  end.

Fixpoint eval (fuel : nat) (gen : oid -> Q) (os : list object) (o : oid)
  : sample :=
  match fuel with
  | O => NoValue
  | S fuel' =>
    match os !! o with
    | None => NoValue
    | Some ob =>
      node_value (fun a => match a with
                           | Num x => Val x
                           | Obj o' => eval fuel' gen os o'
                           end)
                 (gen o) (obj_node ob)
    end
  end.

(** The sample of a parameter: the number itself, or the sample of the
    object. *)
Definition eval_arg (fuel : nat) (gen : oid -> Q) (os : list object) (a : arg)
  : sample :=
  match a with
  | Num x => Val x
  | Obj o => eval fuel gen os o
  end.

(** [refines r r']: [r'] is [r], or [r] ran out of fuel or objects. *)
Definition refines (r r' : sample) : Prop := r = NoValue \/ r = r'.

Local Close Scope Q_scope.

(** ** An attribute of an instance

    A value found in an instance's [__dict__]: a parameter (a number or a
    [PyoObject]), or the list of base objects, which is a plain list and no
    [PyoObject]. *)
Inductive attr :=
| AttrArg (a : arg)
| AttrBase (l : list oid).

(** [isinstance(v, PyoObject)], with the object when it is one. *)
Definition isinstance_PyoObject (v : attr) : option oid :=
  match v with
  | AttrArg (Obj o) => Some o
  | _ => None
  end.

(** ** brkpntosc.py *)
Module BrkPntOsc.

Record t := Mk {
  _mul : arg;
  _add : arg;
  _freq : arg;
  _phase : arg;
  _breakpoint : oid;
  _invbrk : oid;
  _phasor : oid;
  _rising : oid;
  _falling : oid;
  _osc : oid;
  _output : oid;
  _base_objs : list oid
}.

#[export] Instance pyo_object : PyoObject t := {| base_objs := _base_objs |}.

(** [__init__(self, freq=100, phase=0, breakpoint=0.5, mul=1, add=0)].
    Every operator of the two waveform expressions creates one object, in
    the order Python evaluates them. *)
Definition __init__ (freq phase breakpoint mul add : arg) : M t :=
  brk <- new (Sig breakpoint (Num 1) (Num 0)) ;;
  invbrk <- new (Arith Sub (Num 1) (Obj brk)) ;;
  phasor <- new (Phasor freq phase) ;;
  ratio <- new (Arith Div (Obj phasor) (Obj brk)) ;;
  below <- new (Compare Lt (Obj phasor) (Obj brk)) ;;
  rising <- new (Arith Mul (Obj ratio) (Obj below)) ;;
  past <- new (Arith Sub (Obj phasor) (Obj brk)) ;;
  slope <- new (Arith Div (Obj past) (Obj invbrk)) ;;
  down <- new (Arith Mul (Obj slope) (Num (-1))) ;;
  ramp <- new (Arith Add (Obj down) (Num 1)) ;;
  above <- new (Compare Ge (Obj phasor) (Obj brk)) ;;
  falling <- new (Arith Mul (Obj ramp) (Obj above)) ;;
  both <- new (Arith Add (Obj rising) (Obj falling)) ;;
  osc <- new (Sig (Obj both) (Num 2) (Num (-1))) ;;
  output <- new (Sig (Obj osc) mul add) ;;
  ret {| _mul := mul; _add := add; _freq := freq; _phase := phase;
         _breakpoint := brk; _invbrk := invbrk; _phasor := phasor;
         _rising := rising; _falling := falling; _osc := osc;
         _output := output; _base_objs := getBaseObjects output |}.

Definition setFreq (self : t) (freq : arg) : M t :=
  let self := {| _mul := _mul self; _add := _add self; _freq := freq;
                 _phase := _phase self; _breakpoint := _breakpoint self;
                 _invbrk := _invbrk self; _phasor := _phasor self;
                 _rising := _rising self; _falling := _falling self;
                 _osc := _osc self; _output := _output self;
                 _base_objs := _base_objs self |} in
  Phasor_setFreq (_phasor self) (_freq self) ;; ret self.

Definition setPhase (self : t) (phase : arg) : M t :=
  let self := {| _mul := _mul self; _add := _add self; _freq := _freq self;
                 _phase := phase; _breakpoint := _breakpoint self;
                 _invbrk := _invbrk self; _phasor := _phasor self;
                 _rising := _rising self; _falling := _falling self;
                 _osc := _osc self; _output := _output self;
                 _base_objs := _base_objs self |} in
  Phasor_setPhase (_phasor self) (_phase self) ;; ret self.

Definition setBrkPnt (self : t) (brkpnt : arg) : M t :=
  Sig_setValue (_breakpoint self) brkpnt ;; ret self.

(** The properties [freq], [phase] and [breakpoint]. *)
Definition freq (self : t) : arg := _freq self.
Definition phase (self : t) : arg := _phase self.
Definition breakpoint (self : t) : oid := _breakpoint self.

(** The class defines no [play], [stop] or [out]: a call finds the method
    of the base class. *)
Definition play (self : t) (dur delay : Q) : M t :=
  PyoObject_play self dur delay.

Definition stop (self : t) : M t :=
  PyoObject_stop self.

Definition out (self : t) (chnl inc : Z) (dur delay : Q) : M t :=
  PyoObject_out self chnl inc dur delay.

(** The setters of the properties [freq], [phase] and [breakpoint]. *)
Definition freq_setter (self : t) (freq : arg) : M t := setFreq self freq.
Definition phase_setter (self : t) (phase : arg) : M t := setPhase self phase.
Definition breakpoint_setter (self : t) (brkpnt : arg) : M t :=
  setBrkPnt self brkpnt.

End BrkPntOsc.

(** ** triosc.py *)
Module TriOsc.

Record t := Mk {
  _mul : arg;
  _add : arg;
  _freq : arg;
  _phase : arg;
  _phasor : oid;
  _inv_phasor : oid;
  _min : oid;
  _output : oid;
  _base_objs : list oid
}.

#[export] Instance pyo_object : PyoObject t := {| base_objs := _base_objs |}.

(** [__init__(self, freq=100, phase=0, mul=1, add=0)]. *)
Definition __init__ (freq phase mul add : arg) : M t :=
  phasor <- new (Phasor freq phase) ;;
  down <- new (Arith Mul (Obj phasor) (Num (-1))) ;;
  inv_phasor <- new (Arith Add (Obj down) (Num 1)) ;;
  min <- new (Min (Obj phasor) (Obj inv_phasor) (Num 4) (Num (-1))) ;;
  output <- new (Sig (Obj min) mul add) ;;
  ret {| _mul := mul; _add := add; _freq := freq; _phase := phase;
         _phasor := phasor; _inv_phasor := inv_phasor; _min := min;
         _output := output; _base_objs := getBaseObjects output |}.

Definition setFreq (self : t) (x : arg) : M t :=
  let self := {| _mul := _mul self; _add := _add self; _freq := x;
                 _phase := _phase self; _phasor := _phasor self;
                 _inv_phasor := _inv_phasor self; _min := _min self;
                 _output := _output self; _base_objs := _base_objs self |} in
  Phasor_setFreq (_phasor self) x ;; ret self.

Definition setPhase (self : t) (x : arg) : M t :=
  let self := {| _mul := _mul self; _add := _add self; _freq := _freq self;
                 _phase := x; _phasor := _phasor self;
                 _inv_phasor := _inv_phasor self; _min := _min self;
                 _output := _output self; _base_objs := _base_objs self |} in
  Phasor_setPhase (_phasor self) x ;; ret self.

(** The instance's [__dict__]: the attributes the base constructor and
    [__init__] assign, in the order of assignment.  The bookkeeping
    attributes of the base class, none of which is a [PyoObject], are left
    out. *)
Definition __dict__ (self : t) : list (string * attr) :=
  [("_mul", AttrArg (_mul self));
   ("_add", AttrArg (_add self));
   ("_freq", AttrArg (_freq self));
   ("_phase", AttrArg (_phase self));
   ("_phasor", AttrArg (Obj (_phasor self)));
   ("_inv_phasor", AttrArg (Obj (_inv_phasor self)));
   ("_min", AttrArg (Obj (_min self)));
   ("_output", AttrArg (Obj (_output self)));
   ("_base_objs", AttrBase (_base_objs self))]%string.

(** The loop the three lifecycle methods share: [body] runs on every
    attribute that is a [PyoObject]. *)
Definition for_each_PyoObject (self : t) (body : oid -> M unit) : M unit :=
  for_each (__dict__ self)
           (fun '(key, v) =>
              match isinstance_PyoObject v with
              | Some o => body o
              | None => ret tt
              end).

Definition play (self : t) (dur delay : Q) : M t :=
  for_each_PyoObject self (obj_play dur delay) ;;
  PyoObject_play self dur delay.

Definition stop (self : t) : M t :=
  for_each_PyoObject self obj_stop ;;
  PyoObject_stop self.

Definition out (self : t) (chnl inc : Z) (dur delay : Q) : M t :=
  for_each_PyoObject self (obj_play dur delay) ;;
  PyoObject_out self chnl inc dur delay.

Definition freq (self : t) : arg := _freq self.
Definition phase (self : t) : arg := _phase self.

(** The setters of the properties [freq] and [phase]. *)
Definition freq_setter (self : t) (x : arg) : M t := setFreq self x.
Definition phase_setter (self : t) (x : arg) : M t := setPhase self x.

End TriOsc.

(** ** The objects of an instance, listed

    The nodes [__init__] creates when the store holds [n] objects, in the
    order of creation; the constructors are shown below to create exactly
    these. *)
Definition started (nodes : list node) : list object :=
  map (fun nd => MkObject nd Playing) nodes.

Definition BrkPntOsc_nodes (n : oid) (freq phase breakpoint mul add : arg)
  : list node :=
  [ Sig breakpoint (Num 1) (Num 0);
    Arith Sub (Num 1) (Obj (n + 0));
    Phasor freq phase;
    Arith Div (Obj (n + 2)) (Obj (n + 0));
    Compare Lt (Obj (n + 2)) (Obj (n + 0));
    Arith Mul (Obj (n + 3)) (Obj (n + 4));
    Arith Sub (Obj (n + 2)) (Obj (n + 0));
    Arith Div (Obj (n + 6)) (Obj (n + 1));
    Arith Mul (Obj (n + 7)) (Num (-1));
    Arith Add (Obj (n + 8)) (Num 1);
    Compare Ge (Obj (n + 2)) (Obj (n + 0));
    Arith Mul (Obj (n + 9)) (Obj (n + 10));
    Arith Add (Obj (n + 5)) (Obj (n + 11));
    Sig (Obj (n + 12)) (Num 2) (Num (-1));
    Sig (Obj (n + 13)) mul add ].

Definition BrkPntOsc_self (n : oid) (freq phase mul add : arg) : BrkPntOsc.t :=
  {| BrkPntOsc._mul := mul; BrkPntOsc._add := add;
     BrkPntOsc._freq := freq; BrkPntOsc._phase := phase;
     BrkPntOsc._breakpoint := n + 0; BrkPntOsc._invbrk := n + 1;
     BrkPntOsc._phasor := n + 2; BrkPntOsc._rising := n + 5;
     BrkPntOsc._falling := n + 11; BrkPntOsc._osc := n + 13;
     BrkPntOsc._output := n + 14; BrkPntOsc._base_objs := [n + 14] |}.

Definition TriOsc_nodes (n : oid) (freq phase mul add : arg) : list node :=
  [ Phasor freq phase;
    Arith Mul (Obj (n + 0)) (Num (-1));
    Arith Add (Obj (n + 1)) (Num 1);
    Min (Obj (n + 0)) (Obj (n + 2)) (Num 4) (Num (-1));
    Sig (Obj (n + 3)) mul add ].

Definition TriOsc_self (n : oid) (freq phase mul add : arg) : TriOsc.t :=
  {| TriOsc._mul := mul; TriOsc._add := add;
     TriOsc._freq := freq; TriOsc._phase := phase;
     TriOsc._phasor := n + 0; TriOsc._inv_phasor := n + 2;
     TriOsc._min := n + 3; TriOsc._output := n + 4;
     TriOsc._base_objs := [n + 4] |}.

(** ** The waveform expressions

    The expressions of the two constructors on the samples: [p] is the
    sample of the phasor, [b] that of the breakpoint. *)
Local Open Scope Q_scope.

Definition brk_rising (p b : Q) : Q :=
  p / b * compare Lt p b.

Definition brk_falling (p b : Q) : Q :=
  ((p - b) / (1 - b) * -1 + 1) * compare Ge p b.

Definition brk_raw (p b : Q) : Q :=
  brk_rising p b + brk_falling p b.

Definition brk_osc (p b : Q) : Q :=
  brk_raw p b * 2 + -1.

Definition tri_inv_phasor (p : Q) : Q :=
  p * -1 + 1.

Definition tri_raw (p : Q) : Q :=
  Qmin p (tri_inv_phasor p).

Definition tri_min (p : Q) : Q :=
  tri_raw p * 4 + -1.

Local Close Scope Q_scope.

(** ** Views of an instance *)

(** The [PyoObject]s among the attributes [d], in the order of [d]. *)
Definition PyoObject_attributes (d : list (string * attr)) : list oid :=
  omap (fun kv => isinstance_PyoObject kv.2) d.

(** The sub-signals a triangle oscillator creates for itself. *)
Definition TriOsc_owned (self : TriOsc.t) : list oid :=
  [TriOsc._phasor self; TriOsc._inv_phasor self; TriOsc._min self;
   TriOsc._output self].

(** Every field of an instance but one. *)
Definition BrkPntOsc_but_freq (s : BrkPntOsc.t) :=
  (BrkPntOsc._mul s, BrkPntOsc._add s, BrkPntOsc._phase s,
   BrkPntOsc._breakpoint s, BrkPntOsc._invbrk s, BrkPntOsc._phasor s,
   BrkPntOsc._rising s, BrkPntOsc._falling s, BrkPntOsc._osc s,
   BrkPntOsc._output s, BrkPntOsc._base_objs s).

Definition BrkPntOsc_but_phase (s : BrkPntOsc.t) :=
  (BrkPntOsc._mul s, BrkPntOsc._add s, BrkPntOsc._freq s,
   BrkPntOsc._breakpoint s, BrkPntOsc._invbrk s, BrkPntOsc._phasor s,
   BrkPntOsc._rising s, BrkPntOsc._falling s, BrkPntOsc._osc s,
   BrkPntOsc._output s, BrkPntOsc._base_objs s).

Definition TriOsc_but_freq (s : TriOsc.t) :=
  (TriOsc._mul s, TriOsc._add s, TriOsc._phase s, TriOsc._phasor s,
   TriOsc._inv_phasor s, TriOsc._min s, TriOsc._output s,
   TriOsc._base_objs s).

Definition TriOsc_but_phase (s : TriOsc.t) :=
  (TriOsc._mul s, TriOsc._add s, TriOsc._freq s, TriOsc._phasor s,
   TriOsc._inv_phasor s, TriOsc._min s, TriOsc._output s,
   TriOsc._base_objs s).

(** ** Sequences of method calls

    A caller's use of an instance after its construction: the methods of
    the class, called one after the other. *)
Inductive BrkPntOsc_call :=
| BrkSetFreq (freq : arg)
| BrkSetPhase (phase : arg)
| BrkSetBrkPnt (brkpnt : arg)
| BrkPlay (dur delay : Q)
| BrkStop
| BrkOut (chnl inc : Z) (dur delay : Q).

Definition BrkPntOsc_do (c : BrkPntOsc_call) (self : BrkPntOsc.t)
  : M BrkPntOsc.t :=
  match c with
  | BrkSetFreq freq => BrkPntOsc.setFreq self freq
  | BrkSetPhase phase => BrkPntOsc.setPhase self phase
  | BrkSetBrkPnt brkpnt => BrkPntOsc.setBrkPnt self brkpnt
  | BrkPlay dur delay => BrkPntOsc.play self dur delay
  | BrkStop => BrkPntOsc.stop self
  | BrkOut chnl inc dur delay => BrkPntOsc.out self chnl inc dur delay
  end.

Fixpoint BrkPntOsc_run (cs : list BrkPntOsc_call) (self : BrkPntOsc.t)
  : M BrkPntOsc.t :=
  match cs with
  | [] => ret self
  | c :: cs' => self' <- BrkPntOsc_do c self ;; BrkPntOsc_run cs' self'
  end.

(** The breakpoint in force after the calls [cs], when it was [brkpnt]
    before them. *)
Fixpoint last_brkpnt (cs : list BrkPntOsc_call) (brkpnt : arg) : arg :=
  match cs with
  | [] => brkpnt
  | BrkSetBrkPnt x :: cs' => last_brkpnt cs' x
  | _ :: cs' => last_brkpnt cs' brkpnt
  end.




(** ** Comparing engines *)

(** What the objects of an engine compute, without their states. *)
Definition nodes_of (sv : server) : list node := obj_node <$> objects sv.

(** Two nodes that deliver the same sample whatever their inputs
    deliver. *)
Definition same_signal (n n' : node) : Prop :=
  forall ev g, node_value ev g n = node_value ev g n'.

(** The [PyoObject]s among the arguments of a constructor. *)
Definition arg_objects (args : list arg) : list oid :=
  omap (fun a => match a with Obj o => Some o | Num _ => None end) args.

(** * Properties *)

(** ** Samples: more fuel and a larger store keep a result *)

Lemma refines_refl r : refines r r.
Proof. now right. Qed.

Lemma refines_val r r' x : refines r r' -> r = Val x -> r' = Val x.
Proof. intros [-> | ->]; [discriminate | trivial]. Qed.

Lemma sbind_refines r r' k k' :
  refines r r' -> (forall x, refines (k x) (k' x)) ->
  refines (sbind r k) (sbind r' k').
Proof.
  intros [-> | ->] Hk; [now left |].
  destruct r'; cbn; [apply Hk | now right | now right].
Qed.

Lemma node_value_refines ev ev' g n :
  (forall a, refines (ev a) (ev' a)) ->
  refines (node_value ev g n) (node_value ev' g n).
Proof.
  intros Hev.
  destruct n; cbn [node_value];
    repeat (apply sbind_refines; [apply Hev | intros ?]);
    apply refines_refl.
Qed.

Lemma eval_unfold fuel gen os o :
  eval (S fuel) gen os o =
  match os !! o with
  | None => NoValue
  | Some ob => node_value (eval_arg fuel gen os) (gen o) (obj_node ob)
  end.
Proof. reflexivity. Qed.

Lemma eval_refines_S fuel gen os :
  forall o, refines (eval fuel gen os o) (eval (S fuel) gen os o).
Proof.
  induction fuel as [| fuel IH]; intros o; [now left |].
  rewrite (eval_unfold (S fuel)), (eval_unfold fuel).
  destruct (os !! o) as [ob |]; [| apply refines_refl].
  apply node_value_refines.
  intros [x | o']; [apply refines_refl | apply IH].
Qed.

Lemma eval_refines_app fuel gen os more :
  forall o, refines (eval fuel gen os o) (eval fuel gen (os ++ more) o).
Proof.
  induction fuel as [| fuel IH]; intros o; [now left |].
  rewrite !eval_unfold.
  destruct (os !! o) as [ob |] eqn:Hob; [| now left].
  rewrite (lookup_app_l_Some _ _ _ _ Hob).
  apply node_value_refines.
  intros [x | o']; [apply refines_refl | apply IH].
Qed.

Lemma eval_arg_refines_S fuel gen os a :
  refines (eval_arg fuel gen os a) (eval_arg (S fuel) gen os a).
Proof. destruct a; [apply refines_refl | apply eval_refines_S]. Qed.

Lemma eval_arg_refines_app fuel gen os more a :
  refines (eval_arg fuel gen os a) (eval_arg fuel gen (os ++ more) a).
Proof. destruct a; [apply refines_refl | apply eval_refines_app]. Qed.

(** A parameter that has a sample keeps it when objects are created and
    when the recursion is given more room. *)
Lemma eval_arg_lift fuel gen os a x more m :
  eval_arg fuel gen os a = Val x ->
  fuel <= m ->
  eval_arg m gen (os ++ more) a = Val x.
Proof.
  intros Ha Hm.
  induction Hm as [| m Hm IH].
  - exact (refines_val _ _ _ (eval_arg_refines_app fuel gen os more a) Ha).
  - exact (refines_val _ _ _ (eval_arg_refines_S _ gen _ a) IH).
Qed.

Lemma eval_lift fuel gen os o x m :
  eval fuel gen os o = Val x -> fuel <= m -> eval m gen os o = Val x.
Proof.
  intros Ho Hm.
  induction Hm as [| m Hm IH]; [exact Ho |].
  exact (refines_val _ _ _ (eval_refines_S _ gen os o) IH).
Qed.

(** The objects a constructor creates sit behind those that were there. *)
Lemma lookup_new {A} (os more : list A) (k : nat) :
  (os ++ more) !! (length os + k) = more !! k.
Proof.
  rewrite lookup_app_r by lia.
  f_equal. lia.
Qed.

(** ** What the constructors build *)

Lemma BrkPntOsc_init_spec freq phase breakpoint mul add sv :
  BrkPntOsc.__init__ freq phase breakpoint mul add sv =
  (BrkPntOsc_self (length (objects sv)) freq phase mul add,
   MkServer
     (objects sv ++
      started (BrkPntOsc_nodes (length (objects sv))
                               freq phase breakpoint mul add))
     (calls sv)).
Proof.
  unfold BrkPntOsc.__init__, bind, new, ret, getBaseObjects,
    BrkPntOsc_self, BrkPntOsc_nodes, started.
  cbn [objects calls map].
  rewrite !length_app. cbn [length].
  rewrite <- !app_assoc. cbn [app].
  rewrite <- !Nat.add_assoc. cbn [Nat.add].
  rewrite !Nat.add_0_r. reflexivity.
Qed.

Lemma TriOsc_init_spec freq phase mul add sv :
  TriOsc.__init__ freq phase mul add sv =
  (TriOsc_self (length (objects sv)) freq phase mul add,
   MkServer
     (objects sv ++
      started (TriOsc_nodes (length (objects sv)) freq phase mul add))
     (calls sv)).
Proof.
  unfold TriOsc.__init__, bind, new, ret, getBaseObjects,
    TriOsc_self, TriOsc_nodes, started.
  cbn [objects calls map].
  rewrite !length_app. cbn [length].
  rewrite <- !app_assoc. cbn [app].
  rewrite <- !Nat.add_assoc. cbn [Nat.add].
  rewrite !Nat.add_0_r. reflexivity.
Qed.

(** ** The samples of a breakpoint oscillator's objects *)

Local Open Scope Q_scope.

Lemma arith_div_nonzero x y : ~ y == 0 -> arith Div x y = Val (x / y).
Proof. intros Hy. cbn. destruct (Qeq_dec y 0); [contradiction | reflexivity]. Qed.

Lemma arith_div_zero x y : y == 0 -> arith Div x y = DivByZero.
Proof. intros Hy. cbn. destruct (Qeq_dec y 0); [reflexivity | contradiction]. Qed.

(** One step of [eval] on an object created by a constructor. *)
Ltac eval_new :=
  intros;
  match goal with
  | |- eval ?m _ _ _ = _ => destruct m as [| ?m]; [lia |]
  end;
  rewrite eval_unfold, lookup_new;
  cbn [started BrkPntOsc_nodes TriOsc_nodes map lookup list_lookup
       obj_node node_value eval_arg sbind].

Section BrkPntOscSamples.
Variables (os : list object) (gen : oid -> Q).
Variables (freq phase breakpoint mul add : arg).
Variables (fuel : nat) (b : Q).
Hypothesis Hbreakpoint : eval_arg fuel gen os breakpoint = Val b.

Local Abbreviation n := (length os).
Local Abbreviation os' :=
  (os ++ started (BrkPntOsc_nodes n freq phase breakpoint mul add)).
Local Abbreviation p := (gen (n + 2)%nat).
Local Abbreviation brk := (b * 1 + 0).

Lemma brk_eval_breakpoint m :
  (1 + fuel <= m)%nat -> eval m gen os' (n + 0)%nat = Val brk.
Proof.
  eval_new.
  rewrite (eval_arg_lift _ _ _ _ _ _ m Hbreakpoint) by lia.
  reflexivity.
Qed.

Lemma brk_eval_phasor m :
  (1 <= m)%nat -> eval m gen os' (n + 2)%nat = Val p.
Proof. eval_new. reflexivity. Qed.

Lemma brk_eval_invbrk m :
  (2 + fuel <= m)%nat -> eval m gen os' (n + 1)%nat = Val (1 - brk).
Proof. eval_new. rewrite brk_eval_breakpoint by lia. reflexivity. Qed.

Lemma brk_eval_below m :
  (2 + fuel <= m)%nat -> eval m gen os' (n + 4)%nat = Val (compare Lt p brk).
Proof.
  eval_new. rewrite brk_eval_phasor, brk_eval_breakpoint by lia. reflexivity.
Qed.

Lemma brk_eval_above m :
  (2 + fuel <= m)%nat -> eval m gen os' (n + 10)%nat = Val (compare Ge p brk).
Proof.
  eval_new. rewrite brk_eval_phasor, brk_eval_breakpoint by lia. reflexivity.
Qed.

Lemma brk_eval_past m :
  (2 + fuel <= m)%nat -> eval m gen os' (n + 6)%nat = Val (p - brk).
Proof.
  eval_new. rewrite brk_eval_phasor, brk_eval_breakpoint by lia. reflexivity.
Qed.

(** The rising segment divides by the breakpoint. *)
Lemma brk_eval_ratio m :
  (2 + fuel <= m)%nat ->
  eval m gen os' (n + 3)%nat = arith Div p brk.
Proof.
  eval_new. rewrite brk_eval_phasor, brk_eval_breakpoint by lia. reflexivity.
Qed.

(** The falling segment divides by one minus the breakpoint. *)
Lemma brk_eval_slope m :
  (3 + fuel <= m)%nat ->
  eval m gen os' (n + 7)%nat = arith Div (p - brk) (1 - brk).
Proof.
  eval_new. rewrite brk_eval_past, brk_eval_invbrk by lia. reflexivity.
Qed.

Lemma brk_eval_rising m :
  (3 + fuel <= m)%nat -> ~ b == 0 ->
  eval m gen os' (n + 5)%nat = Val (brk_rising p brk).
Proof.
  eval_new. rewrite brk_eval_ratio, brk_eval_below by lia.
  rewrite arith_div_nonzero by lra.
  reflexivity.
Qed.

Lemma brk_eval_falling m :
  (6 + fuel <= m)%nat -> ~ b == 1 ->
  eval m gen os' (n + 11)%nat = Val (brk_falling p brk).
Proof.
  intros Hm Hb.
  assert (Hslope : forall k, (3 + fuel <= k)%nat ->
            eval k gen os' (n + 7)%nat = Val ((p - brk) / (1 - brk))).
  { intros k Hk. rewrite brk_eval_slope by lia.
    apply arith_div_nonzero. lra. }
  assert (Hdown : forall k, (4 + fuel <= k)%nat ->
            eval k gen os' (n + 8)%nat = Val ((p - brk) / (1 - brk) * -1)).
  { eval_new. rewrite Hslope by lia. reflexivity. }
  assert (Hramp : forall k, (5 + fuel <= k)%nat ->
            eval k gen os' (n + 9)%nat = Val ((p - brk) / (1 - brk) * -1 + 1)).
  { eval_new. rewrite Hdown by lia. reflexivity. }
  revert Hm. eval_new.
  rewrite Hramp, brk_eval_above by lia. reflexivity.
Qed.

Lemma brk_eval_both m :
  (7 + fuel <= m)%nat -> ~ b == 0 -> ~ b == 1 ->
  eval m gen os' (n + 12)%nat = Val (brk_raw p brk).
Proof.
  eval_new. rewrite brk_eval_rising, brk_eval_falling by (lia || assumption).
  reflexivity.
Qed.

Lemma brk_eval_osc m :
  (8 + fuel <= m)%nat -> ~ b == 0 -> ~ b == 1 ->
  eval m gen os' (n + 13)%nat = Val (brk_osc p brk).
Proof.
  eval_new. rewrite brk_eval_both by (lia || assumption). reflexivity.
Qed.

Lemma brk_eval_output m x a :
  (9 + fuel <= m)%nat -> ~ b == 0 -> ~ b == 1 ->
  eval_arg fuel gen os mul = Val x ->
  eval_arg fuel gen os add = Val a ->
  eval m gen os' (n + 14)%nat = Val (brk_osc p brk * x + a).
Proof.
  intros Hm H0 H1 Hmul Hadd. revert Hm. eval_new.
  rewrite brk_eval_osc by (lia || assumption).
  rewrite (eval_arg_lift _ _ _ _ _ _ m Hmul) by lia.
  rewrite (eval_arg_lift _ _ _ _ _ _ m Hadd) by lia.
  reflexivity.
Qed.

End BrkPntOscSamples.

(** ** The samples of a triangle oscillator's objects *)

Section TriOscSamples.
Variables (os : list object) (gen : oid -> Q).
Variables (freq phase mul add : arg).

Local Abbreviation n := (length os).
Local Abbreviation os' := (os ++ started (TriOsc_nodes n freq phase mul add)).
Local Abbreviation p := (gen (n + 0)%nat).

Lemma tri_eval_phasor m :
  (1 <= m)%nat -> eval m gen os' (n + 0)%nat = Val p.
Proof. eval_new. reflexivity. Qed.

Lemma tri_eval_inv_phasor m :
  (3 <= m)%nat -> eval m gen os' (n + 2)%nat = Val (tri_inv_phasor p).
Proof.
  assert (Hdown : forall k, (2 <= k)%nat ->
            eval k gen os' (n + 1)%nat = Val (p * -1)).
  { eval_new. rewrite tri_eval_phasor by lia. reflexivity. }
  eval_new. rewrite Hdown by lia. reflexivity.
Qed.

Lemma tri_eval_min m :
  (4 <= m)%nat -> eval m gen os' (n + 3)%nat = Val (tri_min p).
Proof.
  eval_new. rewrite tri_eval_phasor, tri_eval_inv_phasor by lia. reflexivity.
Qed.

Lemma tri_eval_output fuel m x a :
  (5 + fuel <= m)%nat ->
  eval_arg fuel gen os mul = Val x ->
  eval_arg fuel gen os add = Val a ->
  eval m gen os' (n + 4)%nat = Val (tri_min p * x + a).
Proof.
  intros Hm Hmul Hadd. revert Hm. eval_new.
  rewrite tri_eval_min by lia.
  rewrite (eval_arg_lift _ _ _ _ _ _ m Hmul) by lia.
  rewrite (eval_arg_lift _ _ _ _ _ _ m Hadd) by lia.
  reflexivity.
Qed.

End TriOscSamples.

(** ** The arithmetic of the two waveforms *)

Lemma compare_Lt_cases x y :
  x < y /\ compare Lt x y = 1 \/ y <= x /\ compare Lt x y = 0.
Proof. cbn. destruct (Qlt_le_dec x y); [left | right]; now split. Qed.

Lemma compare_Ge_cases x y :
  x < y /\ compare Ge x y = 0 \/ y <= x /\ compare Ge x y = 1.
Proof. cbn. destruct (Qlt_le_dec x y); [left | right]; now split. Qed.

#[local] Instance compare_proper mode :
  Proper (Qeq ==> Qeq ==> Qeq) (compare mode).
Proof.
  intros x x' Hx y y' Hy.
  destruct mode; cbn;
    destruct (Qlt_le_dec x y), (Qlt_le_dec x' y'); lra.
Qed.

#[local] Instance brk_rising_proper : Proper (Qeq ==> Qeq ==> Qeq) brk_rising.
Proof. intros x x' Hx y y' Hy. unfold brk_rising. now rewrite Hx, Hy. Qed.

#[local] Instance brk_falling_proper :
  Proper (Qeq ==> Qeq ==> Qeq) brk_falling.
Proof. intros x x' Hx y y' Hy. unfold brk_falling. now rewrite Hx, Hy. Qed.

#[local] Instance brk_raw_proper : Proper (Qeq ==> Qeq ==> Qeq) brk_raw.
Proof. intros x x' Hx y y' Hy. unfold brk_raw. now rewrite Hx, Hy. Qed.

#[local] Instance brk_osc_proper : Proper (Qeq ==> Qeq ==> Qeq) brk_osc.
Proof. intros x x' Hx y y' Hy. unfold brk_osc. now rewrite Hx, Hy. Qed.

(** The sample of [Sig(breakpoint)] is that of [breakpoint]. *)
Lemma sig_identity b : b * 1 + 0 == b.
Proof. ring. Qed.

Lemma brk_raw_below p b : p < b -> brk_raw p b == p / b.
Proof.
  intros Hp. unfold brk_raw, brk_rising, brk_falling.
  destruct (compare_Lt_cases p b) as [[_ ->] | [H _]]; [| lra].
  destruct (compare_Ge_cases p b) as [[_ ->] | [H _]]; [| lra].
  unfold Qdiv. ring.
Qed.

Lemma brk_raw_above p b :
  b <= p -> brk_raw p b == 1 - (p - b) / (1 - b).
Proof.
  intros Hp. unfold brk_raw, brk_rising, brk_falling.
  destruct (compare_Lt_cases p b) as [[H _] | [_ ->]]; [lra |].
  destruct (compare_Ge_cases p b) as [[H _] | [_ ->]]; [lra |].
  unfold Qdiv. ring.
Qed.

Lemma brk_raw_range p b :
  0 < b < 1 -> 0 <= p < 1 -> 0 <= brk_raw p b <= 1.
Proof.
  intros [Hb0 Hb1] [Hp0 Hp1].
  destruct (Qlt_le_dec p b) as [Hlt | Hge].
  - rewrite (brk_raw_below p b Hlt). split.
    + apply Qle_shift_div_l; lra.
    + apply Qle_shift_div_r; lra.
  - rewrite (brk_raw_above p b Hge).
    assert (0 <= (p - b) / (1 - b)) by (apply Qle_shift_div_l; lra).
    assert ((p - b) / (1 - b) <= 1) by (apply Qle_shift_div_r; lra).
    split; lra.
Qed.

Lemma tri_inv_phasor_eq p : tri_inv_phasor p == 1 - p.
Proof. unfold tri_inv_phasor. ring. Qed.

Lemma tri_raw_cases p :
  p < 1 - p /\ tri_raw p == p \/ 1 - p <= p /\ tri_raw p == 1 - p.
Proof.
  unfold tri_raw.
  destruct (Q.min_spec p (tri_inv_phasor p)) as [[H E] | [H E]];
    rewrite tri_inv_phasor_eq in H; [left | right]; split; trivial.
  now rewrite E, tri_inv_phasor_eq.
Qed.

(** With the breakpoint in the middle, the breakpoint oscillator computes
    the sample of the triangle oscillator. *)
Lemma brk_osc_half p b : b == 1 # 2 -> brk_osc p b == tri_min p.
Proof.
  intros Hb. unfold brk_osc, tri_min.
  destruct (Qlt_le_dec p b) as [Hlt | Hge].
  - rewrite (brk_raw_below p b) by lra.
    destruct (tri_raw_cases p) as [[_ ->] | [H _]]; [| lra].
    rewrite Hb. field.
  - rewrite (brk_raw_above p b) by lra.
    destruct (tri_raw_cases p) as [[H _] | [_ ->]]; [lra |].
    rewrite Hb. field.
Qed.

(** ** The breakpoint oscillator's waveform *)



(** C7.  For a phasor sample in [0,1) and a breakpoint sample in (0,1),
    the sample of the sum of the masked rising and falling segments lies
    in [0,1]. *)
Theorem brk_raw_in_unit_interval
    sv freq phase breakpoint mul add self sv' gen fuel p b :
  BrkPntOsc.__init__ freq phase breakpoint mul add sv = (self, sv') ->
  eval_arg fuel gen (objects sv) breakpoint = Val b ->
  gen (BrkPntOsc._phasor self) = p ->
  0 <= p < 1 ->
  0 < b < 1 ->
  exists raw v,
    node_at sv' (BrkPntOsc._osc self) = Some (Sig (Obj raw) (Num 2) (Num (-1))) /\
    node_at sv' raw =
      Some (Arith Add (Obj (BrkPntOsc._rising self))
                      (Obj (BrkPntOsc._falling self))) /\
    eval (7 + fuel) gen (objects sv') raw = Val v /\
    0 <= v <= 1.
Proof.
  intros Hinit Hb Hp Hp01 Hb01.
  rewrite BrkPntOsc_init_spec in Hinit. injection Hinit as <- <-.
  cbn [BrkPntOsc_self BrkPntOsc._osc BrkPntOsc._rising BrkPntOsc._falling
       BrkPntOsc._phasor objects] in *.
  subst p. set (p := gen (length (objects sv) + 2)%nat) in *.
  exists (length (objects sv) + 12)%nat, (brk_raw p (b * 1 + 0)).
  split; [| split; [| split]].
  - unfold node_at. cbn [objects]. rewrite lookup_new. reflexivity.
  - unfold node_at. cbn [objects]. rewrite lookup_new. reflexivity.
  - apply (brk_eval_both _ _ _ _ _ _ _ fuel b Hb); [lia | lra | lra].
  - rewrite sig_identity. now apply brk_raw_range.
Qed.

Lemma brk_raw_in_unit_interval_witness :
  let built :=
    BrkPntOsc.__init__ (Num 200) (Num 0) (Num (1 # 3)) (Num 1) (Num 0)
                       empty_server in
  let gen := fun _ : oid => 3 # 4 in
  exists raw v,
    node_at built.2 (BrkPntOsc._osc built.1) =
      Some (Sig (Obj raw) (Num 2) (Num (-1))) /\
    node_at built.2 raw =
      Some (Arith Add (Obj (BrkPntOsc._rising built.1))
                      (Obj (BrkPntOsc._falling built.1))) /\
    eval 7 gen (objects built.2) raw = Val v /\
    0 <= v <= 1.
Proof.
  intros built gen.
  apply (brk_raw_in_unit_interval empty_server (Num 200) (Num 0)
           (Num (1 # 3)) (Num 1) (Num 0) built.1 built.2 gen 0
           (3 # 4) (1 # 3)).
  - reflexivity.
  - reflexivity.
  - reflexivity.
  - split; [discriminate | reflexivity].
  - split; reflexivity.
Defined.



(** ** The triangle oscillator's waveform *)

Lemma tri_raw_range p : 0 <= p < 1 -> 0 <= tri_raw p <= 1 # 2.
Proof.
  intros Hp. destruct (tri_raw_cases p) as [[H ->] | [H ->]]; lra.
Qed.

Lemma tri_raw_peak p : tri_raw p == 1 # 2 <-> p == 1 # 2.
Proof.
  destruct (tri_raw_cases p) as [[H ->] | [H ->]]; split; lra.
Qed.

Lemma tri_raw_zero p : p == 0 -> tri_raw p == 0.
Proof.
  intros Hp. destruct (tri_raw_cases p) as [[H ->] | [H ->]]; lra.
Qed.

(** C2.  For a phasor sample [p] in [0,1), [_inv_phasor] has the sample
    [1 - p]; the minimum [raw] of the two lies in [0, 0.5], is 0.5 exactly
    when [p] is 0.5 and is 0 when [p] is 0; [_min] has the sample
    [4 * raw - 1] and [_output] the sample [(4 * raw - 1) * mul + add]. *)
Theorem tri_waveform sv freq phase mul add self sv' gen fuel p x a :
  TriOsc.__init__ freq phase mul add sv = (self, sv') ->
  eval_arg fuel gen (objects sv) mul = Val x ->
  eval_arg fuel gen (objects sv) add = Val a ->
  gen (TriOsc._phasor self) = p ->
  0 <= p < 1 ->
  exists inverse scaled out,
    node_at sv' (TriOsc._min self) =
      Some (Min (Obj (TriOsc._phasor self)) (Obj (TriOsc._inv_phasor self))
                (Num 4) (Num (-1))) /\
    node_at sv' (TriOsc._output self) =
      Some (Sig (Obj (TriOsc._min self)) mul add) /\
    eval (5 + fuel) gen (objects sv') (TriOsc._inv_phasor self) = Val inverse /\
    inverse == 1 - p /\
    0 <= Qmin p inverse <= 1 # 2 /\
    (Qmin p inverse == 1 # 2 <-> p == 1 # 2) /\
    (p == 0 -> Qmin p inverse == 0) /\
    eval (5 + fuel) gen (objects sv') (TriOsc._min self) = Val scaled /\
    scaled == 4 * Qmin p inverse - 1 /\
    eval (5 + fuel) gen (objects sv') (TriOsc._output self) = Val out /\
    out == (4 * Qmin p inverse - 1) * x + a.
Proof.
  intros Hinit Hmul Hadd Hp Hp01.
  rewrite TriOsc_init_spec in Hinit. injection Hinit as <- <-.
  cbn [TriOsc_self TriOsc._phasor TriOsc._inv_phasor TriOsc._min
       TriOsc._output objects] in *.
  subst p. set (p := gen (length (objects sv) + 0)%nat) in *.
  exists (tri_inv_phasor p), (tri_min p), (tri_min p * x + a).
  fold (tri_raw p).
  split; [| split; [| split; [| split; [| split; [| split; [| split;
    [| split; [| split; [| split]]]]]]]]].
  - unfold node_at. cbn [objects]. rewrite lookup_new. reflexivity.
  - unfold node_at. cbn [objects]. rewrite lookup_new. reflexivity.
  - apply tri_eval_inv_phasor. lia.
  - apply tri_inv_phasor_eq.
  - now apply tri_raw_range.
  - apply tri_raw_peak.
  - apply tri_raw_zero.
  - apply tri_eval_min. lia.
  - unfold tri_min. ring.
  - apply (tri_eval_output _ _ _ _ _ _ fuel); trivial.
  - unfold tri_min. ring.
Qed.

Lemma tri_waveform_witness :
  let built :=
    TriOsc.__init__ (Num 200) (Num 0) (Num (1 # 5)) (Num 0) empty_server in
  let gen := fun _ : oid => 1 # 2 in
  exists inverse scaled out,
    node_at built.2 (TriOsc._min built.1) =
      Some (Min (Obj (TriOsc._phasor built.1))
                (Obj (TriOsc._inv_phasor built.1)) (Num 4) (Num (-1))) /\
    node_at built.2 (TriOsc._output built.1) =
      Some (Sig (Obj (TriOsc._min built.1)) (Num (1 # 5)) (Num 0)) /\
    eval 5 gen (objects built.2) (TriOsc._inv_phasor built.1) = Val inverse /\
    inverse == 1 - (1 # 2) /\
    0 <= Qmin (1 # 2) inverse <= 1 # 2 /\
    (Qmin (1 # 2) inverse == 1 # 2 <-> 1 # 2 == 1 # 2) /\
    (1 # 2 == 0 -> Qmin (1 # 2) inverse == 0) /\
    eval 5 gen (objects built.2) (TriOsc._min built.1) = Val scaled /\
    scaled == 4 * Qmin (1 # 2) inverse - 1 /\
    eval 5 gen (objects built.2) (TriOsc._output built.1) = Val out /\
    out == (4 * Qmin (1 # 2) inverse - 1) * (1 # 5) + 0.
Proof.
  intros built gen.
  apply (tri_waveform empty_server (Num 200) (Num 0) (Num (1 # 5)) (Num 0)
           built.1 built.2 gen 0 (1 # 2) (1 # 5) 0).
  - reflexivity.
  - reflexivity.
  - reflexivity.
  - reflexivity.
  - split; [discriminate | reflexivity].
Defined.

(** ** The breakpoint oscillator at breakpoint 0.5 *)

(** C4.  For a phasor sample [p] in [0,1), a breakpoint oscillator whose
    breakpoint sample is 0.5 and a triangle oscillator at the same [p]
    have the same sample before their [mul] and [add]: that of [_osc],
    which is [2 * raw - 1] for the sum [raw] of the masked segments, is
    that of [_min], which is [4 * min(p, 1 - p) - 1]. *)
Theorem brk_half_is_triangle
    sv freq phase breakpoint mul add brk sv' gen fuel b
    tv tfreq tphase tmul tadd tri tv' tgen p :
  BrkPntOsc.__init__ freq phase breakpoint mul add sv = (brk, sv') ->
  TriOsc.__init__ tfreq tphase tmul tadd tv = (tri, tv') ->
  eval_arg fuel gen (objects sv) breakpoint = Val b ->
  b == 1 # 2 ->
  gen (BrkPntOsc._phasor brk) = p ->
  tgen (TriOsc._phasor tri) = p ->
  0 <= p < 1 ->
  exists raw v y z,
    node_at sv' (BrkPntOsc._osc brk) = Some (Sig (Obj raw) (Num 2) (Num (-1))) /\
    eval (8 + fuel) gen (objects sv') raw = Val v /\
    eval (8 + fuel) gen (objects sv') (BrkPntOsc._osc brk) = Val y /\
    y == 2 * v - 1 /\
    eval 4 tgen (objects tv') (TriOsc._min tri) = Val z /\
    z == 4 * Qmin p (1 - p) - 1 /\
    y == z.
Proof.
  intros Hinit Htinit Hb Hhalf Hp Htp Hp01.
  rewrite BrkPntOsc_init_spec in Hinit. injection Hinit as <- <-.
  rewrite TriOsc_init_spec in Htinit. injection Htinit as <- <-.
  cbn [BrkPntOsc_self BrkPntOsc._osc BrkPntOsc._phasor
       TriOsc_self TriOsc._phasor TriOsc._min objects] in *.
  exists (length (objects sv) + 12)%nat, (brk_raw p (b * 1 + 0)),
         (brk_osc p (b * 1 + 0)), (tri_min p).
  split; [| split; [| split; [| split; [| split; [| split]]]]].
  - unfold node_at. cbn [objects]. rewrite lookup_new. reflexivity.
  - rewrite <- Hp.
    apply (brk_eval_both _ _ _ _ _ _ _ fuel b Hb); [lia | lra | lra].
  - rewrite <- Hp.
    apply (brk_eval_osc _ _ _ _ _ _ _ fuel b Hb); [lia | lra | lra].
  - unfold brk_osc. ring.
  - rewrite <- Htp. apply tri_eval_min. lia.
  - unfold tri_min, tri_raw. rewrite tri_inv_phasor_eq. ring.
  - apply brk_osc_half. rewrite sig_identity. exact Hhalf.
Qed.

Lemma brk_half_is_triangle_witness :
  let built :=
    BrkPntOsc.__init__ (Num 200) (Num 0) (Num (1 # 2)) (Num 1) (Num 0)
                       empty_server in
  let tbuilt :=
    TriOsc.__init__ (Num 200) (Num 0) (Num 1) (Num 0) built.2 in
  let gen := fun _ : oid => 7 # 10 in
  exists raw v y z,
    node_at built.2 (BrkPntOsc._osc built.1) =
      Some (Sig (Obj raw) (Num 2) (Num (-1))) /\
    eval 8 gen (objects built.2) raw = Val v /\
    eval 8 gen (objects built.2) (BrkPntOsc._osc built.1) = Val y /\
    y == 2 * v - 1 /\
    eval 4 gen (objects tbuilt.2) (TriOsc._min tbuilt.1) = Val z /\
    z == 4 * Qmin (7 # 10) (1 - (7 # 10)) - 1 /\
    y == z.
Proof.
  intros built tbuilt gen.
  apply (brk_half_is_triangle empty_server (Num 200) (Num 0) (Num (1 # 2))
           (Num 1) (Num 0) built.1 built.2 gen 0 (1 # 2)
           built.2 (Num 200) (Num 0) (Num 1) (Num 0) tbuilt.1 tbuilt.2 gen
           (7 # 10)).
  - reflexivity.
  - reflexivity.
  - reflexivity.
  - reflexivity.
  - reflexivity.
  - reflexivity.
  - split; [discriminate | reflexivity].
Defined.

(** ** Lifecycle calls and setters on the engine *)

Section ForEachLifecycle.
Context {A : Type}.
Variables (body : A -> M unit) (c : A -> call) (st : status) (tgt : A -> oid).
Hypothesis Hbody : forall x, body x = lifecycle (c x) st (tgt x).

Lemma for_each_lifecycle_calls (l : list A) sv :
  calls (for_each l body sv).2 = calls sv ++ map (fun x => (tgt x, c x)) l.
Proof.
  revert sv. induction l as [| x l IH]; intros sv.
  - cbn. now rewrite app_nil_r.
  - cbn [for_each map]. unfold bind. rewrite Hbody. cbn [lifecycle].
    rewrite IH. cbn [calls]. now rewrite <- app_assoc.
Qed.


Lemma for_each_lifecycle_node (l : list A) sv o :
  node_at (for_each l body sv).2 o = node_at sv o.
Proof.
  revert sv. induction l as [| x l IH]; intros sv; [reflexivity |].
  cbn [for_each]. unfold bind. rewrite Hbody. cbn [lifecycle].
  rewrite IH. unfold node_at. cbn [objects].
  rewrite list_lookup_alter. case_decide as Ho; [| reflexivity].
  subst o. destruct (objects sv !! tgt x); reflexivity.
Qed.

(** An object none of the calls is made on keeps its state. *)
Lemma for_each_lifecycle_other (l : list A) sv o :
  o ∉ map tgt l ->
  objects (for_each l body sv).2 !! o = objects sv !! o.
Proof.
  revert sv. induction l as [| x l IH]; intros sv Ho; [reflexivity |].
  cbn [map] in Ho. apply not_elem_of_cons in Ho as [Hx Hl].
  cbn [for_each]. unfold bind. rewrite Hbody. cbn [lifecycle].
  rewrite (IH _ Hl). cbn [objects].
  now rewrite list_lookup_alter_ne by congruence.
Qed.


End ForEachLifecycle.

(** The loop over [__dict__] is the loop over its [PyoObject]s. *)
Lemma for_each_isinstance (d : list (string * attr)) body sv :
  for_each d (fun '(key, v) =>
                match isinstance_PyoObject v with
                | Some o => body o
                | None => ret tt
                end) sv =
  for_each (PyoObject_attributes d) body sv.
Proof.
  revert sv. induction d as [| [key v] d IH]; intros sv; [reflexivity |].
  cbn [for_each PyoObject_attributes omap list_omap snd]. unfold bind.
  fold (PyoObject_attributes d).
  destruct (isinstance_PyoObject v) as [o |]; cbn [for_each].
  - unfold bind. destruct (body o sv). apply IH.
  - cbn [ret]. apply IH.
Qed.

Lemma bind_run {A B} (m : M A) (k : A -> M B) sv :
  bind m k sv = k (m sv).1 (m sv).2.
Proof. unfold bind. now destruct (m sv). Qed.

(** ** The lifecycle methods of the triangle oscillator *)

(** The four sub-signals are among the [PyoObject]s of [__dict__]. *)
Lemma TriOsc_owned_attributes self o :
  o ∈ TriOsc_owned self -> o ∈ PyoObject_attributes (TriOsc.__dict__ self).
Proof.
  intros Ho. apply list_elem_of_omap.
  unfold TriOsc_owned in Ho. unfold TriOsc.__dict__.
  repeat (apply elem_of_cons in Ho as [-> | Ho]);
    [ exists ("_phasor"%string, AttrArg (Obj (TriOsc._phasor self)))
    | exists ("_inv_phasor"%string, AttrArg (Obj (TriOsc._inv_phasor self)))
    | exists ("_min"%string, AttrArg (Obj (TriOsc._min self)))
    | exists ("_output"%string, AttrArg (Obj (TriOsc._output self)))
    | now apply elem_of_nil in Ho ];
    (split; [| reflexivity]);
    repeat (first [apply list_elem_of_here | apply list_elem_of_further]).
Qed.

(** The two phases of a lifecycle method of the triangle oscillator: the
    loop over the attributes, then the base class on [_base_objs]. *)
Section TriOscPhases.
Variables (self : TriOsc.t) (sv : server).
Variables (c1 c2 : call) (st1 st2 : status).

Local Abbreviation attrs := (PyoObject_attributes (TriOsc.__dict__ self)).
Local Abbreviation after :=
  (for_each (TriOsc._base_objs self) (lifecycle c2 st2)
     (for_each attrs (lifecycle c1 st1) sv).2).2.



End TriOscPhases.

Lemma TriOsc_play_run self dur delay sv :
  TriOsc.play self dur delay sv =
  (self,
   (for_each (TriOsc._base_objs self) (lifecycle (CallPlay dur delay) Playing)
      (for_each (PyoObject_attributes (TriOsc.__dict__ self))
                (lifecycle (CallPlay dur delay) Playing) sv).2).2).
Proof.
  unfold TriOsc.play, TriOsc.for_each_PyoObject, PyoObject_play.
  rewrite bind_run, for_each_isinstance, bind_run. reflexivity.
Qed.

Lemma TriOsc_stop_run self sv :
  TriOsc.stop self sv =
  (self,
   (for_each (TriOsc._base_objs self) (lifecycle CallStop Stopped)
      (for_each (PyoObject_attributes (TriOsc.__dict__ self))
                (lifecycle CallStop Stopped) sv).2).2).
Proof.
  unfold TriOsc.stop, TriOsc.for_each_PyoObject, PyoObject_stop.
  rewrite bind_run, for_each_isinstance, bind_run. reflexivity.
Qed.

(** [out] on an instance whose [_base_objs] is the one object [o]. *)
Lemma TriOsc_out_run self o chnl inc dur delay sv :
  TriOsc._base_objs self = [o] ->
  TriOsc.out self chnl inc dur delay sv =
  (self,
   (for_each (TriOsc._base_objs self)
             (lifecycle (CallOut chnl dur delay) Outputting)
      (for_each (PyoObject_attributes (TriOsc.__dict__ self))
                (lifecycle (CallPlay dur delay) Playing) sv).2).2).
Proof.
  intros Hbase.
  unfold TriOsc.out, TriOsc.for_each_PyoObject, PyoObject_out.
  rewrite bind_run, for_each_isinstance, bind_run.
  cbn [base_objs TriOsc.pyo_object]. rewrite Hbase.
  cbn [imap for_each Z.of_nat Z.mul]. rewrite Z.add_0_r. reflexivity.
Qed.




(** ** The lifecycle methods of the breakpoint oscillator *)

Lemma for_each_one (body : oid -> M unit) (o : oid) sv :
  for_each [o] body sv = (tt, (body o sv).2).
Proof. cbn [for_each]. rewrite bind_run. reflexivity. Qed.

(** One lifecycle call, on an object of the store. *)
Lemma lifecycle_one c st o sv :
  (o < length (objects sv))%nat ->
  calls (lifecycle c st o sv).2 = calls sv ++ [(o, c)] /\
  status_at (lifecycle c st o sv).2 o = Some st /\
  (forall o', o' <> o ->
     objects (lifecycle c st o sv).2 !! o' = objects sv !! o') /\
  (forall o', node_at (lifecycle c st o sv).2 o' = node_at sv o').
Proof.
  intros Hlen. cbn [lifecycle snd calls objects].
  split; [reflexivity |]. split; [| split].
  - unfold status_at. cbn [objects]. rewrite list_lookup_alter_eq.
    destruct (lookup_lt_is_Some_2 _ _ Hlen) as [ob ->]. reflexivity.
  - intros o' Ho'. now rewrite list_lookup_alter_ne by congruence.
  - intros o'. unfold node_at. cbn [objects].
    rewrite list_lookup_alter. case_decide as Ho'; [| reflexivity].
    subst o'. destruct (objects sv !! o); reflexivity.
Qed.

(** The cascade of the triangle oscillator reaches every owned object,
    whatever the instance and the engine's state. *)
Lemma TriOsc_cascade_reaches self sv c st o more :
  o ∈ TriOsc_owned self ->
  (o, c) ∈
    calls (for_each (PyoObject_attributes (TriOsc.__dict__ self))
                    (lifecycle c st) sv).2 ++ more.
Proof.
  intros Ho.
  rewrite (for_each_lifecycle_calls _ (fun _ => c) st id) by reflexivity.
  apply elem_of_app. left. apply elem_of_app. right.
  apply (list_elem_of_fmap_2 (fun x : oid => (id x, c))).
  now apply TriOsc_owned_attributes.
Qed.

(** C10.  A breakpoint oscillator has the [play], [stop] and [out] of
    the base class: the one call recorded is the one on the output, the
    output takes the new state, and every other object, among them the
    breakpoint, the phasor, the rising and the falling segment and the
    oscillator, is left as it was.  On a triangle oscillator the same
    three methods also make their call on each owned sub-signal. *)
Theorem brk_lifecycle_base_only
    sv0 freq phase breakpoint mul add self sv1 sv dur delay chnl inc
    (tri : TriOsc.t) (tsv : server) :
  BrkPntOsc.__init__ freq phase breakpoint mul add sv0 = (self, sv1) ->
  (length (objects sv1) <= length (objects sv))%nat ->
  let output := BrkPntOsc._output self in
  let untouched sv' :=
    forall o, o <> output -> objects sv' !! o = objects sv !! o in
  (output ∉ [BrkPntOsc._breakpoint self; BrkPntOsc._invbrk self;
             BrkPntOsc._phasor self; BrkPntOsc._rising self;
             BrkPntOsc._falling self; BrkPntOsc._osc self]) /\
  (calls (BrkPntOsc.play self dur delay sv).2 =
     calls sv ++ [(output, CallPlay dur delay)] /\
   status_at (BrkPntOsc.play self dur delay sv).2 output = Some Playing /\
   untouched (BrkPntOsc.play self dur delay sv).2) /\
  (calls (BrkPntOsc.stop self sv).2 = calls sv ++ [(output, CallStop)] /\
   status_at (BrkPntOsc.stop self sv).2 output = Some Stopped /\
   untouched (BrkPntOsc.stop self sv).2) /\
  (calls (BrkPntOsc.out self chnl inc dur delay sv).2 =
     calls sv ++ [(output, CallOut chnl dur delay)] /\
   status_at (BrkPntOsc.out self chnl inc dur delay sv).2 output =
     Some Outputting /\
   untouched (BrkPntOsc.out self chnl inc dur delay sv).2) /\
  (forall o, o ∈ TriOsc_owned tri ->
     (o, CallPlay dur delay) ∈ calls (TriOsc.play tri dur delay tsv).2 /\
     (o, CallStop) ∈ calls (TriOsc.stop tri tsv).2 /\
     (o, CallPlay dur delay) ∈
       calls (TriOsc.out tri chnl inc dur delay tsv).2).
Proof.
  intros Hinit Hlen output untouched.
  rewrite BrkPntOsc_init_spec in Hinit. injection Hinit as <- <-.
  cbn [objects] in Hlen. rewrite length_app in Hlen.
  cbn [length started BrkPntOsc_nodes map] in Hlen.
  set (n := length (objects sv0)) in *.
  assert (Hout : (n + 14 < length (objects sv))%nat) by lia.
  subst output untouched. cbn [BrkPntOsc_self BrkPntOsc._output
    BrkPntOsc._breakpoint BrkPntOsc._invbrk BrkPntOsc._phasor
    BrkPntOsc._rising BrkPntOsc._falling BrkPntOsc._osc].
  split; [| split; [| split; [| split]]].
  - rewrite !not_elem_of_cons. repeat split; try lia. apply not_elem_of_nil.
  - unfold BrkPntOsc.play, PyoObject_play. rewrite bind_run.
    cbn [base_objs BrkPntOsc.pyo_object BrkPntOsc_self BrkPntOsc._base_objs].
    rewrite for_each_one. cbn [snd ret].
    destruct (lifecycle_one (CallPlay dur delay) Playing _ sv Hout)
      as (Hc & Hs & Ho & _).
    auto.
  - unfold BrkPntOsc.stop, PyoObject_stop. rewrite bind_run.
    cbn [base_objs BrkPntOsc.pyo_object BrkPntOsc_self BrkPntOsc._base_objs].
    rewrite for_each_one. cbn [snd ret].
    destruct (lifecycle_one CallStop Stopped _ sv Hout) as (Hc & Hs & Ho & _).
    auto.
  - unfold BrkPntOsc.out, PyoObject_out. rewrite bind_run.
    cbn [base_objs BrkPntOsc.pyo_object BrkPntOsc_self BrkPntOsc._base_objs
         imap].
    cbn [for_each]. rewrite bind_run. cbn [snd ret Z.of_nat Z.mul].
    rewrite Z.add_0_r.
    destruct (lifecycle_one (CallOut chnl dur delay) Outputting _ sv Hout)
      as (Hc & Hs & Ho & _).
    auto.
  - intros o Ho. split; [| split].
    + rewrite TriOsc_play_run. cbn [snd].
      rewrite (for_each_lifecycle_calls _ (fun _ => CallPlay dur delay)
                 Playing id) by reflexivity.
      now apply TriOsc_cascade_reaches.
    + rewrite TriOsc_stop_run. cbn [snd].
      rewrite (for_each_lifecycle_calls _ (fun _ => CallStop) Stopped id)
        by reflexivity.
      now apply TriOsc_cascade_reaches.
    + unfold TriOsc.out, TriOsc.for_each_PyoObject, PyoObject_out.
      rewrite bind_run, for_each_isinstance, bind_run. cbn [snd ret].
      rewrite (for_each_lifecycle_calls _
                 (fun x => CallOut (chnl + Z.of_nat x.1 * inc) dur delay)
                 Outputting snd) by (intros [i o']; reflexivity).
      now apply TriOsc_cascade_reaches.
Qed.

Lemma brk_lifecycle_base_only_witness :
  let built :=
    BrkPntOsc.__init__ (Num 200) (Num 0) (Num (1 # 2)) (Num 1) (Num 0)
                       empty_server in
  let self := built.1 in
  let sv := built.2 in
  let tbuilt :=
    TriOsc.__init__ (Num 200) (Num 0) (Num 1) (Num 0) empty_server in
  let output := BrkPntOsc._output self in
  let untouched sv' :=
    forall o, o <> output -> objects sv' !! o = objects sv !! o in
  (output ∉ [BrkPntOsc._breakpoint self; BrkPntOsc._invbrk self;
             BrkPntOsc._phasor self; BrkPntOsc._rising self;
             BrkPntOsc._falling self; BrkPntOsc._osc self]) /\
  (calls (BrkPntOsc.play self 0 0 sv).2 = calls sv ++ [(output, CallPlay 0 0)] /\
   status_at (BrkPntOsc.play self 0 0 sv).2 output = Some Playing /\
   untouched (BrkPntOsc.play self 0 0 sv).2) /\
  (calls (BrkPntOsc.stop self sv).2 = calls sv ++ [(output, CallStop)] /\
   status_at (BrkPntOsc.stop self sv).2 output = Some Stopped /\
   untouched (BrkPntOsc.stop self sv).2) /\
  (calls (BrkPntOsc.out self 0 1 0 0 sv).2 =
     calls sv ++ [(output, CallOut 0 0 0)] /\
   status_at (BrkPntOsc.out self 0 1 0 0 sv).2 output = Some Outputting /\
   untouched (BrkPntOsc.out self 0 1 0 0 sv).2) /\
  (forall o, o ∈ TriOsc_owned tbuilt.1 ->
     (o, CallPlay 0 0) ∈ calls (TriOsc.play tbuilt.1 0 0 tbuilt.2).2 /\
     (o, CallStop) ∈ calls (TriOsc.stop tbuilt.1 tbuilt.2).2 /\
     (o, CallPlay 0 0) ∈ calls (TriOsc.out tbuilt.1 0 1 0 0 tbuilt.2).2).
Proof.
  intros built self sv tbuilt.
  apply (brk_lifecycle_base_only empty_server (Num 200) (Num 0) (Num (1 # 2))
           (Num 1) (Num 0) self sv sv 0 0 0%Z 1%Z tbuilt.1 tbuilt.2).
  - reflexivity.
  - apply le_n.
Defined.

(** ** The setters *)

(** What a setter of the engine does to the store: the node of the one
    object is replaced, and nothing else changes. *)
Lemma set_node_frame f o sv nd st :
  objects sv !! o = Some (MkObject nd st) ->
  objects (set_node f o sv).2 !! o = Some (MkObject (f nd) st) /\
  (forall o', o' <> o -> objects (set_node f o sv).2 !! o' = objects sv !! o') /\
  length (objects (set_node f o sv).2) = length (objects sv) /\
  calls (set_node f o sv).2 = calls sv.
Proof.
  intros Ho. cbn [set_node snd objects calls].
  split; [| split; [| split]].
  - rewrite list_lookup_alter_eq, Ho. reflexivity.
  - intros o' Ho'. now rewrite list_lookup_alter_ne by congruence.
  - apply length_alter.
  - reflexivity.
Qed.

(** C8.  [setBrkPnt] replaces the value held by the [Sig] that
    [_breakpoint] refers to and nothing else: the instance comes back
    with every attribute as it was, [_breakpoint] among them, the [Sig]
    keeps its place in the store, its [mul], its [add] and its state, and
    every other object and the record of calls are unchanged. *)
Theorem setBrkPnt_in_place (self : BrkPntOsc.t) sv brkpnt value m a st :
  objects sv !! BrkPntOsc._breakpoint self = Some (MkObject (Sig value m a) st) ->
  let after := BrkPntOsc.setBrkPnt self brkpnt sv in
  after.1 = self /\
  BrkPntOsc.breakpoint after.1 = BrkPntOsc.breakpoint self /\
  objects after.2 !! BrkPntOsc._breakpoint self =
    Some (MkObject (Sig brkpnt m a) st) /\
  (forall o, o <> BrkPntOsc._breakpoint self ->
     objects after.2 !! o = objects sv !! o) /\
  length (objects after.2) = length (objects sv) /\
  calls after.2 = calls sv.
Proof.
  intros Hbrk after. subst after.
  unfold BrkPntOsc.setBrkPnt, Sig_setValue. rewrite bind_run. cbn [fst snd ret].
  split; [reflexivity |]. split; [reflexivity |].
  exact (set_node_frame _ _ sv _ st Hbrk).
Qed.

Lemma setBrkPnt_in_place_witness :
  let built :=
    BrkPntOsc.__init__ (Num 200) (Num 0) (Num (1 # 2)) (Num 1) (Num 0)
                       empty_server in
  let self := built.1 in
  let sv := built.2 in
  let after := BrkPntOsc.setBrkPnt self (Num (1 # 5)) sv in
  after.1 = self /\
  BrkPntOsc.breakpoint after.1 = BrkPntOsc.breakpoint self /\
  objects after.2 !! BrkPntOsc._breakpoint self =
    Some (MkObject (Sig (Num (1 # 5)) (Num 1) (Num 0)) Playing) /\
  (forall o, o <> BrkPntOsc._breakpoint self ->
     objects after.2 !! o = objects sv !! o) /\
  length (objects after.2) = length (objects sv) /\
  calls after.2 = calls sv.
Proof.
  intros built self sv.
  apply (setBrkPnt_in_place self sv (Num (1 # 5)) (Num (1 # 2)) (Num 1)
           (Num 0) Playing).
  reflexivity.
Defined.

(** C9.  [setFreq] and [setPhase] of either oscillator store the new
    value in [_freq], respectively [_phase], and hand it to the phasor,
    whose other parameter and state stay; every other attribute of the
    instance, every other object of the engine and the record of calls
    are unchanged. *)
Theorem setters_frame
    (brk : BrkPntOsc.t) (tri : TriOsc.t) sv x f ph st tf tph tst :
  objects sv !! BrkPntOsc._phasor brk = Some (MkObject (Phasor f ph) st) ->
  objects sv !! TriOsc._phasor tri = Some (MkObject (Phasor tf tph) tst) ->
  let same_but (o : oid) (sv' : server) :=
    (forall o', o' <> o -> objects sv' !! o' = objects sv !! o') /\
    length (objects sv') = length (objects sv) /\
    calls sv' = calls sv in
  (let after := BrkPntOsc.setFreq brk x sv in
   BrkPntOsc._freq after.1 = x /\
   BrkPntOsc_but_freq after.1 = BrkPntOsc_but_freq brk /\
   objects after.2 !! BrkPntOsc._phasor brk = Some (MkObject (Phasor x ph) st) /\
   same_but (BrkPntOsc._phasor brk) after.2) /\
  (let after := BrkPntOsc.setPhase brk x sv in
   BrkPntOsc._phase after.1 = x /\
   BrkPntOsc_but_phase after.1 = BrkPntOsc_but_phase brk /\
   objects after.2 !! BrkPntOsc._phasor brk = Some (MkObject (Phasor f x) st) /\
   same_but (BrkPntOsc._phasor brk) after.2) /\
  (let after := TriOsc.setFreq tri x sv in
   TriOsc._freq after.1 = x /\
   TriOsc_but_freq after.1 = TriOsc_but_freq tri /\
   objects after.2 !! TriOsc._phasor tri = Some (MkObject (Phasor x tph) tst) /\
   same_but (TriOsc._phasor tri) after.2) /\
  (let after := TriOsc.setPhase tri x sv in
   TriOsc._phase after.1 = x /\
   TriOsc_but_phase after.1 = TriOsc_but_phase tri /\
   objects after.2 !! TriOsc._phasor tri = Some (MkObject (Phasor tf x) tst) /\
   same_but (TriOsc._phasor tri) after.2).
Proof.
  intros Hbrk Htri same_but. subst same_but. cbn beta.
  unfold BrkPntOsc.setFreq, BrkPntOsc.setPhase, TriOsc.setFreq,
    TriOsc.setPhase, Phasor_setFreq, Phasor_setPhase.
  rewrite !bind_run. cbn [fst snd ret].
  cbn [BrkPntOsc._freq BrkPntOsc._phase BrkPntOsc._phasor
       TriOsc._freq TriOsc._phase TriOsc._phasor].
  split; [| split; [| split]];
    (split; [reflexivity |]); (split; [reflexivity |]).
  - exact (set_node_frame _ _ sv _ st Hbrk).
  - exact (set_node_frame _ _ sv _ st Hbrk).
  - exact (set_node_frame _ _ sv _ tst Htri).
  - exact (set_node_frame _ _ sv _ tst Htri).
Qed.

Lemma setters_frame_witness :
  let built :=
    BrkPntOsc.__init__ (Num 200) (Num 0) (Num (1 # 2)) (Num 1) (Num 0)
                       empty_server in
  let tbuilt := TriOsc.__init__ (Num 100) (Num 0) (Num 1) (Num 0) built.2 in
  let brk := built.1 in
  let tri := tbuilt.1 in
  let sv := tbuilt.2 in
  let x := Num 440 in
  let same_but (o : oid) (sv' : server) :=
    (forall o', o' <> o -> objects sv' !! o' = objects sv !! o') /\
    length (objects sv') = length (objects sv) /\
    calls sv' = calls sv in
  (let after := BrkPntOsc.setFreq brk x sv in
   BrkPntOsc._freq after.1 = x /\
   BrkPntOsc_but_freq after.1 = BrkPntOsc_but_freq brk /\
   objects after.2 !! BrkPntOsc._phasor brk =
     Some (MkObject (Phasor x (Num 0)) Playing) /\
   same_but (BrkPntOsc._phasor brk) after.2) /\
  (let after := BrkPntOsc.setPhase brk x sv in
   BrkPntOsc._phase after.1 = x /\
   BrkPntOsc_but_phase after.1 = BrkPntOsc_but_phase brk /\
   objects after.2 !! BrkPntOsc._phasor brk =
     Some (MkObject (Phasor (Num 200) x) Playing) /\
   same_but (BrkPntOsc._phasor brk) after.2) /\
  (let after := TriOsc.setFreq tri x sv in
   TriOsc._freq after.1 = x /\
   TriOsc_but_freq after.1 = TriOsc_but_freq tri /\
   objects after.2 !! TriOsc._phasor tri =
     Some (MkObject (Phasor x (Num 0)) Playing) /\
   same_but (TriOsc._phasor tri) after.2) /\
  (let after := TriOsc.setPhase tri x sv in
   TriOsc._phase after.1 = x /\
   TriOsc_but_phase after.1 = TriOsc_but_phase tri /\
   objects after.2 !! TriOsc._phasor tri =
     Some (MkObject (Phasor (Num 100) x) Playing) /\
   same_but (TriOsc._phasor tri) after.2).
Proof.
  intros built tbuilt brk tri sv x.
  apply (setters_frame brk tri sv x (Num 200) (Num 0) Playing
           (Num 100) (Num 0) Playing).
  - reflexivity.
  - reflexivity.
Defined.

(** A setter acts on the graph the constructor built: right after
    construction, [setBrkPnt] leaves the engine as the constructor would
    have with the new breakpoint. *)
Lemma setBrkPnt_after_init freq phase breakpoint mul add sv self sv' brkpnt :
  BrkPntOsc.__init__ freq phase breakpoint mul add sv = (self, sv') ->
  BrkPntOsc.setBrkPnt self brkpnt sv' =
  BrkPntOsc.__init__ freq phase brkpnt mul add sv.
Proof.
  intros Hinit. rewrite !BrkPntOsc_init_spec in *. injection Hinit as <- <-.
  unfold BrkPntOsc.setBrkPnt, Sig_setValue. rewrite bind_run.
  cbn [fst snd ret set_node objects calls BrkPntOsc_self
       BrkPntOsc._breakpoint].
  rewrite alter_app_r. reflexivity.
Qed.

(** ** The breakpoint at 0 and at 1

    The divisor of the rising segment is the breakpoint [Sig] itself and
    that of the falling segment is [_invbrk], one minus it; no object
    stands between the caller's value and the division. *)
Lemma brk_divisors sv freq phase breakpoint mul add self sv' :
  BrkPntOsc.__init__ freq phase breakpoint mul add sv = (self, sv') ->
  node_at sv' (BrkPntOsc._breakpoint self) =
    Some (Sig breakpoint (Num 1) (Num 0)) /\
  node_at sv' (BrkPntOsc._invbrk self) =
    Some (Arith Sub (Num 1) (Obj (BrkPntOsc._breakpoint self))) /\
  exists ratio below past slope,
    node_at sv' (BrkPntOsc._rising self) =
      Some (Arith Mul (Obj ratio) (Obj below)) /\
    node_at sv' ratio =
      Some (Arith Div (Obj (BrkPntOsc._phasor self))
                      (Obj (BrkPntOsc._breakpoint self))) /\
    node_at sv' past =
      Some (Arith Sub (Obj (BrkPntOsc._phasor self))
                      (Obj (BrkPntOsc._breakpoint self))) /\
    node_at sv' slope =
      Some (Arith Div (Obj past) (Obj (BrkPntOsc._invbrk self))).
Proof.
  intros Hinit. rewrite BrkPntOsc_init_spec in Hinit. injection Hinit as <- <-.
  cbn [BrkPntOsc_self BrkPntOsc._breakpoint BrkPntOsc._invbrk
       BrkPntOsc._phasor BrkPntOsc._rising].
  unfold node_at. cbn [objects].
  split; [rewrite lookup_new; reflexivity |].
  split; [rewrite lookup_new; reflexivity |].
  exists (length (objects sv) + 3)%nat, (length (objects sv) + 4)%nat,
         (length (objects sv) + 6)%nat, (length (objects sv) + 7)%nat.
  rewrite !lookup_new. repeat split.
Qed.

(** With the breakpoint at 0 the divisor of the rising segment is 0, and
    with the breakpoint at 1 that of the falling segment is: the model
    assigns the segment no sample there. *)
Lemma brk_rising_at_zero sv freq phase breakpoint mul add self sv' gen fuel b :
  BrkPntOsc.__init__ freq phase breakpoint mul add sv = (self, sv') ->
  eval_arg fuel gen (objects sv) breakpoint = Val b ->
  b == 0 ->
  eval (3 + fuel) gen (objects sv') (BrkPntOsc._breakpoint self) = Val (b * 1 + 0) /\
  eval (3 + fuel) gen (objects sv') (BrkPntOsc._rising self) = DivByZero.
Proof.
  intros Hinit Hb Hzero.
  rewrite BrkPntOsc_init_spec in Hinit. injection Hinit as <- <-.
  cbn [BrkPntOsc_self BrkPntOsc._breakpoint BrkPntOsc._rising objects].
  split.
  - apply (brk_eval_breakpoint _ _ _ _ _ _ _ fuel b Hb). lia.
  - cbn [Nat.add]. rewrite eval_unfold, lookup_new.
    cbn [started BrkPntOsc_nodes map lookup list_lookup obj_node node_value
         eval_arg sbind].
    rewrite (brk_eval_ratio (objects sv) gen freq phase breakpoint mul add
               fuel b Hb) by lia.
    rewrite arith_div_zero by (rewrite Hzero; reflexivity).
    reflexivity.
Qed.


(** * Further properties *)

(** ** The shape of the two waveforms *)

Lemma Qdiv_zero_iff x y : ~ y == 0 -> (x / y == 0 <-> x == 0).
Proof.
  intros Hy. split; intros Hx.
  - assert (Hxy : x == x / y * y) by (field; exact Hy).
    rewrite Hxy, Hx. ring.
  - rewrite Hx. unfold Qdiv. ring.
Qed.

Lemma Qdiv_below_one x y : 0 < y -> x < y -> x / y < 1.
Proof. intros Hy Hx. apply Qlt_shift_div_r; lra. Qed.

Lemma Qdiv_lt_compat x x' y : 0 < y -> x < x' -> x / y < x' / y.
Proof.
  intros Hy Hx. unfold Qdiv.
  apply Qmult_lt_compat_r; [now apply Qinv_lt_0_compat | exact Hx].
Qed.

Lemma brk_osc_range p b : 0 < b < 1 -> 0 <= p < 1 -> -1 <= brk_osc p b <= 1.
Proof.
  intros Hb Hp. unfold brk_osc.
  pose proof (brk_raw_range p b Hb Hp). lra.
Qed.

(** A sample in [-1,1], multiplied by [x] and shifted by [a], stays
    within [x] of [a]. *)
Lemma scaled_range v x a :
  -1 <= v <= 1 ->
  (0 <= x -> a - x <= v * x + a <= a + x) /\
  (x <= 0 -> a + x <= v * x + a <= a - x).
Proof. intros Hv. split; intros Hx; split; nra. Qed.

Lemma brk_raw_peak p b :
  0 < b < 1 -> 0 <= p < 1 ->
  (brk_raw p b == 1 <-> p == b) /\ (brk_raw p b == 0 <-> p == 0).
Proof.
  intros [Hb0 Hb1] [Hp0 Hp1].
  destruct (Qlt_le_dec p b) as [Hlt | Hge].
  - rewrite (brk_raw_below p b Hlt).
    pose proof (Qdiv_below_one p b Hb0 Hlt).
    split; [split; lra | apply Qdiv_zero_iff; lra].
  - rewrite (brk_raw_above p b Hge).
    assert (Hone : (p - b) / (1 - b) < 1) by (apply Qdiv_below_one; lra).
    assert (Hzero : (p - b) / (1 - b) == 0 <-> p - b == 0)
      by (apply Qdiv_zero_iff; lra).
    split; split; intros H; lra.
Qed.

Lemma brk_raw_rises p1 p2 b :
  0 < b -> p1 < p2 -> p2 < b -> brk_raw p1 b < brk_raw p2 b.
Proof.
  intros Hb H12 H2.
  rewrite (brk_raw_below p1 b), (brk_raw_below p2 b) by lra.
  now apply Qdiv_lt_compat.
Qed.

Lemma brk_raw_falls p1 p2 b :
  b < 1 -> b <= p1 -> p1 < p2 -> brk_raw p2 b < brk_raw p1 b.
Proof.
  intros Hb H1 H12.
  rewrite (brk_raw_above p1 b), (brk_raw_above p2 b) by lra.
  assert ((p1 - b) / (1 - b) < (p2 - b) / (1 - b))
    by (apply Qdiv_lt_compat; lra).
  lra.
Qed.


Lemma tri_raw_mirror p : tri_raw (1 - p) == tri_raw p.
Proof.
  destruct (tri_raw_cases p) as [[H ->] | [H ->]];
    destruct (tri_raw_cases (1 - p)) as [[H' ->] | [H' ->]]; lra.
Qed.

Lemma tri_raw_rises p1 p2 :
  p1 < p2 -> p2 <= 1 # 2 -> tri_raw p1 < tri_raw p2.
Proof.
  intros H12 H2.
  destruct (tri_raw_cases p1) as [[H ->] | [H ->]];
    destruct (tri_raw_cases p2) as [[H' ->] | [H' ->]]; lra.
Qed.

Lemma tri_raw_falls p1 p2 :
  1 # 2 <= p1 -> p1 < p2 -> tri_raw p2 < tri_raw p1.
Proof.
  intros H1 H12.
  destruct (tri_raw_cases p1) as [[H ->] | [H ->]];
    destruct (tri_raw_cases p2) as [[H' ->] | [H' ->]]; lra.
Qed.

Lemma tri_raw_trough p : 0 <= p < 1 -> (tri_raw p == 0 <-> p == 0).
Proof.
  intros Hp. destruct (tri_raw_cases p) as [[H ->] | [H ->]]; split; lra.
Qed.

#[local] Instance tri_raw_proper : Proper (Qeq ==> Qeq) tri_raw.
Proof.
  intros x y Hxy. unfold tri_raw, tri_inv_phasor.
  apply Q.min_compat; [exact Hxy | now rewrite Hxy].
Qed.

(** The samples of [_osc] and [_output] of a breakpoint oscillator, and of
    [_min] and [_output] of a triangle oscillator, as the constructors
    leave them. *)
Lemma brk_built_osc sv freq phase breakpoint mul add self sv' gen fuel b :
  BrkPntOsc.__init__ freq phase breakpoint mul add sv = (self, sv') ->
  eval_arg fuel gen (objects sv) breakpoint = Val b ->
  ~ b == 0 -> ~ b == 1 ->
  eval (9 + fuel) gen (objects sv') (BrkPntOsc._osc self) =
  Val (brk_osc (gen (BrkPntOsc._phasor self)) (b * 1 + 0)).
Proof.
  intros Hinit Hb H0 H1.
  rewrite BrkPntOsc_init_spec in Hinit. injection Hinit as <- <-.
  apply (brk_eval_osc _ _ _ _ _ _ _ fuel b Hb); [lia | exact H0 | exact H1].
Qed.

Lemma brk_built_output
    sv freq phase breakpoint mul add self sv' gen fuel b x a :
  BrkPntOsc.__init__ freq phase breakpoint mul add sv = (self, sv') ->
  eval_arg fuel gen (objects sv) breakpoint = Val b ->
  eval_arg fuel gen (objects sv) mul = Val x ->
  eval_arg fuel gen (objects sv) add = Val a ->
  ~ b == 0 -> ~ b == 1 ->
  eval (9 + fuel) gen (objects sv') (BrkPntOsc._output self) =
  Val (brk_osc (gen (BrkPntOsc._phasor self)) (b * 1 + 0) * x + a).
Proof.
  intros Hinit Hb Hx Ha H0 H1.
  rewrite BrkPntOsc_init_spec in Hinit. injection Hinit as <- <-.
  apply (brk_eval_output _ _ _ _ _ _ _ fuel b Hb); trivial.
Qed.

Lemma tri_built_min sv freq phase mul add self sv' gen fuel :
  TriOsc.__init__ freq phase mul add sv = (self, sv') ->
  eval (5 + fuel) gen (objects sv') (TriOsc._min self) =
  Val (tri_min (gen (TriOsc._phasor self))).
Proof.
  intros Hinit.
  rewrite TriOsc_init_spec in Hinit. injection Hinit as <- <-.
  apply tri_eval_min. lia.
Qed.

Lemma tri_built_output sv freq phase mul add self sv' gen fuel x a :
  TriOsc.__init__ freq phase mul add sv = (self, sv') ->
  eval_arg fuel gen (objects sv) mul = Val x ->
  eval_arg fuel gen (objects sv) add = Val a ->
  eval (5 + fuel) gen (objects sv') (TriOsc._output self) =
  Val (tri_min (gen (TriOsc._phasor self)) * x + a).
Proof.
  intros Hinit Hx Ha.
  rewrite TriOsc_init_spec in Hinit. injection Hinit as <- <-.
  apply (tri_eval_output _ _ _ _ _ _ fuel); trivial.
Qed.

(** X1.  For a phasor sample in [0,1) and a breakpoint sample in (0,1),
    the sample of [_osc] of a breakpoint oscillator lies in [-1,1] and that
    of [_output] within [mul] of [add], whatever the sign of [mul]. *)
Theorem brk_output_range
    sv freq phase breakpoint mul add self sv' gen fuel p b x a :
  BrkPntOsc.__init__ freq phase breakpoint mul add sv = (self, sv') ->
  eval_arg fuel gen (objects sv) breakpoint = Val b ->
  eval_arg fuel gen (objects sv) mul = Val x ->
  eval_arg fuel gen (objects sv) add = Val a ->
  gen (BrkPntOsc._phasor self) = p ->
  0 <= p < 1 ->
  0 < b < 1 ->
  exists v out,
    eval (9 + fuel) gen (objects sv') (BrkPntOsc._osc self) = Val v /\
    -1 <= v <= 1 /\
    eval (9 + fuel) gen (objects sv') (BrkPntOsc._output self) = Val out /\
    (0 <= x -> a - x <= out <= a + x) /\
    (x <= 0 -> a + x <= out <= a - x).
Proof.
  intros Hinit Hb Hx Ha Hp Hp01 Hb01.
  exists (brk_osc p (b * 1 + 0)), (brk_osc p (b * 1 + 0) * x + a).
  assert (Hv : -1 <= brk_osc p (b * 1 + 0) <= 1)
    by (rewrite sig_identity; now apply brk_osc_range).
  split; [| split; [exact Hv | split]].
  - rewrite <- Hp. apply (brk_built_osc _ _ _ _ _ _ _ _ _ _ _ Hinit Hb); lra.
  - rewrite <- Hp.
    apply (brk_built_output _ _ _ _ _ _ _ _ _ _ _ _ _ Hinit Hb Hx Ha); lra.
  - now apply scaled_range.
Qed.

Lemma brk_output_range_witness :
  let built :=
    BrkPntOsc.__init__ (Num 200) (Num 0) (Num (1 # 3)) (Num (-1 # 5))
                       (Num (1 # 2)) empty_server in
  let gen := fun _ : oid => 3 # 4 in
  exists v out,
    eval 9 gen (objects built.2) (BrkPntOsc._osc built.1) = Val v /\
    -1 <= v <= 1 /\
    eval 9 gen (objects built.2) (BrkPntOsc._output built.1) = Val out /\
    (0 <= -1 # 5 -> (1 # 2) - (-1 # 5) <= out <= (1 # 2) + (-1 # 5)) /\
    (-1 # 5 <= 0 -> (1 # 2) + (-1 # 5) <= out <= (1 # 2) - (-1 # 5)).
Proof.
  intros built gen.
  apply (brk_output_range empty_server (Num 200) (Num 0) (Num (1 # 3))
           (Num (-1 # 5)) (Num (1 # 2)) built.1 built.2 gen 0
           (3 # 4) (1 # 3) (-1 # 5) (1 # 2)).
  - reflexivity.
  - reflexivity.
  - reflexivity.
  - reflexivity.
  - reflexivity.
  - split; [discriminate | reflexivity].
  - split; reflexivity.
Defined.

(** X2.  For a phasor sample in [0,1), the sample of [_min] of a triangle
    oscillator lies in [-1,1] and that of [_output] within [mul] of
    [add]. *)
Theorem tri_output_range sv freq phase mul add self sv' gen fuel p x a :
  TriOsc.__init__ freq phase mul add sv = (self, sv') ->
  eval_arg fuel gen (objects sv) mul = Val x ->
  eval_arg fuel gen (objects sv) add = Val a ->
  gen (TriOsc._phasor self) = p ->
  0 <= p < 1 ->
  exists v out,
    eval (5 + fuel) gen (objects sv') (TriOsc._min self) = Val v /\
    -1 <= v <= 1 /\
    eval (5 + fuel) gen (objects sv') (TriOsc._output self) = Val out /\
    (0 <= x -> a - x <= out <= a + x) /\
    (x <= 0 -> a + x <= out <= a - x).
Proof.
  intros Hinit Hx Ha Hp Hp01.
  exists (tri_min p), (tri_min p * x + a).
  assert (Hv : -1 <= tri_min p <= 1).
  { unfold tri_min. pose proof (tri_raw_range p Hp01). lra. }
  split; [| split; [exact Hv | split]].
  - rewrite <- Hp. exact (tri_built_min _ _ _ _ _ _ _ _ _ Hinit).
  - rewrite <- Hp. exact (tri_built_output _ _ _ _ _ _ _ _ _ _ _ Hinit Hx Ha).
  - now apply scaled_range.
Qed.

Lemma tri_output_range_witness :
  let built :=
    TriOsc.__init__ (Num 200) (Num 0) (Num (1 # 5)) (Num 0) empty_server in
  let gen := fun _ : oid => 7 # 10 in
  exists v out,
    eval 5 gen (objects built.2) (TriOsc._min built.1) = Val v /\
    -1 <= v <= 1 /\
    eval 5 gen (objects built.2) (TriOsc._output built.1) = Val out /\
    (0 <= 1 # 5 -> 0 - (1 # 5) <= out <= 0 + (1 # 5)) /\
    (1 # 5 <= 0 -> 0 + (1 # 5) <= out <= 0 - (1 # 5)).
Proof.
  intros built gen.
  apply (tri_output_range empty_server (Num 200) (Num 0) (Num (1 # 5))
           (Num 0) built.1 built.2 gen 0 (7 # 10) (1 # 5) 0).
  - reflexivity.
  - reflexivity.
  - reflexivity.
  - reflexivity.
  - split; [discriminate | reflexivity].
Defined.

(** X3.  For a phasor sample [p] in [0,1) and a breakpoint sample [b] in
    (0,1), [_osc] of a breakpoint oscillator is at its top, 1, exactly
    when [p] is [b], and at its bottom, -1, exactly when [p] is 0. *)
Theorem brk_osc_extremes sv freq phase breakpoint mul add self sv' gen fuel p b :
  BrkPntOsc.__init__ freq phase breakpoint mul add sv = (self, sv') ->
  eval_arg fuel gen (objects sv) breakpoint = Val b ->
  gen (BrkPntOsc._phasor self) = p ->
  0 <= p < 1 ->
  0 < b < 1 ->
  exists v,
    eval (9 + fuel) gen (objects sv') (BrkPntOsc._osc self) = Val v /\
    (v == 1 <-> p == b) /\
    (v == -1 <-> p == 0).
Proof.
  intros Hinit Hb Hp Hp01 Hb01.
  exists (brk_osc p (b * 1 + 0)). split.
  - rewrite <- Hp. apply (brk_built_osc _ _ _ _ _ _ _ _ _ _ _ Hinit Hb); lra.
  - rewrite sig_identity. unfold brk_osc.
    destruct (brk_raw_peak p b Hb01 Hp01) as [Htop Hbottom].
    split; split; intros H.
    + apply Htop. lra.
    + apply Htop in H. lra.
    + apply Hbottom. lra.
    + apply Hbottom in H. lra.
Qed.

Lemma brk_osc_extremes_witness :
  let built :=
    BrkPntOsc.__init__ (Num 200) (Num 0) (Num (1 # 3)) (Num 1) (Num 0)
                       empty_server in
  let gen := fun _ : oid => 1 # 3 in
  exists v,
    eval 9 gen (objects built.2) (BrkPntOsc._osc built.1) = Val v /\
    (v == 1 <-> 1 # 3 == 1 # 3) /\
    (v == -1 <-> 1 # 3 == 0).
Proof.
  intros built gen.
  apply (brk_osc_extremes empty_server (Num 200) (Num 0) (Num (1 # 3))
           (Num 1) (Num 0) built.1 built.2 gen 0 (1 # 3) (1 # 3)).
  - reflexivity.
  - reflexivity.
  - reflexivity.
  - split; [discriminate | reflexivity].
  - split; reflexivity.
Defined.

(** X4.  With the breakpoint sample [b] in (0,1), [_osc] of a breakpoint
    oscillator rises strictly with the phasor sample below [b] and falls
    strictly from [b] on. *)
Theorem brk_osc_monotone
    sv freq phase breakpoint mul add self sv' gen1 gen2 fuel p1 p2 b :
  BrkPntOsc.__init__ freq phase breakpoint mul add sv = (self, sv') ->
  eval_arg fuel gen1 (objects sv) breakpoint = Val b ->
  eval_arg fuel gen2 (objects sv) breakpoint = Val b ->
  gen1 (BrkPntOsc._phasor self) = p1 ->
  gen2 (BrkPntOsc._phasor self) = p2 ->
  0 < b < 1 ->
  p1 < p2 ->
  exists v1 v2,
    eval (9 + fuel) gen1 (objects sv') (BrkPntOsc._osc self) = Val v1 /\
    eval (9 + fuel) gen2 (objects sv') (BrkPntOsc._osc self) = Val v2 /\
    (p2 < b -> v1 < v2) /\
    (b <= p1 -> v2 < v1).
Proof.
  intros Hinit Hb1 Hb2 Hp1 Hp2 Hb01 H12.
  exists (brk_osc p1 (b * 1 + 0)), (brk_osc p2 (b * 1 + 0)).
  split; [| split; [| split]].
  - rewrite <- Hp1. apply (brk_built_osc _ _ _ _ _ _ _ _ _ _ _ Hinit Hb1); lra.
  - rewrite <- Hp2. apply (brk_built_osc _ _ _ _ _ _ _ _ _ _ _ Hinit Hb2); lra.
  - intros H2. rewrite !sig_identity. unfold brk_osc.
    pose proof (brk_raw_rises p1 p2 b). lra.
  - intros H1. rewrite !sig_identity. unfold brk_osc.
    pose proof (brk_raw_falls p1 p2 b). lra.
Qed.

Lemma brk_osc_monotone_witness :
  let built :=
    BrkPntOsc.__init__ (Num 200) (Num 0) (Num (1 # 3)) (Num 1) (Num 0)
                       empty_server in
  let gen1 := fun _ : oid => 1 # 2 in
  let gen2 := fun _ : oid => 3 # 4 in
  exists v1 v2,
    eval 9 gen1 (objects built.2) (BrkPntOsc._osc built.1) = Val v1 /\
    eval 9 gen2 (objects built.2) (BrkPntOsc._osc built.1) = Val v2 /\
    (3 # 4 < 1 # 3 -> v1 < v2) /\
    (1 # 3 <= 1 # 2 -> v2 < v1).
Proof.
  intros built gen1 gen2.
  apply (brk_osc_monotone empty_server (Num 200) (Num 0) (Num (1 # 3))
           (Num 1) (Num 0) built.1 built.2 gen1 gen2 0 (1 # 2) (3 # 4)
           (1 # 3)).
  - reflexivity.
  - reflexivity.
  - reflexivity.
  - reflexivity.
  - reflexivity.
  - split; reflexivity.
  - reflexivity.
Defined.



(** X6.  [_min] of a triangle oscillator has the same sample at the phasor
    samples [p] and [1 - p], rises strictly up to 0.5 and falls strictly
    from 0.5 on, and within [0,1) is at its bottom, -1, exactly when the
    phasor sample is 0. *)
Theorem tri_shape sv freq phase mul add self sv' gen1 gen2 p1 p2 :
  TriOsc.__init__ freq phase mul add sv = (self, sv') ->
  gen1 (TriOsc._phasor self) = p1 ->
  gen2 (TriOsc._phasor self) = p2 ->
  exists v1 v2,
    eval 5 gen1 (objects sv') (TriOsc._min self) = Val v1 /\
    eval 5 gen2 (objects sv') (TriOsc._min self) = Val v2 /\
    (p2 == 1 - p1 -> v1 == v2) /\
    (p1 < p2 -> p2 <= 1 # 2 -> v1 < v2) /\
    (1 # 2 <= p1 -> p1 < p2 -> v2 < v1) /\
    (0 <= p1 < 1 -> (v1 == -1 <-> p1 == 0)).
Proof.
  intros Hinit Hp1 Hp2.
  exists (tri_min p1), (tri_min p2).
  split; [| split; [| split; [| split; [| split]]]].
  - rewrite <- Hp1. exact (tri_built_min _ _ _ _ _ _ _ gen1 0%nat Hinit).
  - rewrite <- Hp2. exact (tri_built_min _ _ _ _ _ _ _ gen2 0%nat Hinit).
  - intros H. unfold tri_min. rewrite H, tri_raw_mirror. reflexivity.
  - intros H12 H2. unfold tri_min.
    pose proof (tri_raw_rises p1 p2 H12 H2). lra.
  - intros H1 H12. unfold tri_min.
    pose proof (tri_raw_falls p1 p2 H1 H12). lra.
  - intros Hp. unfold tri_min.
    destruct (tri_raw_trough p1 Hp) as [Hto Hfrom].
    split; intros H.
    + apply Hto. lra.
    + apply Hfrom in H. lra.
Qed.

Lemma tri_shape_witness :
  let built :=
    TriOsc.__init__ (Num 200) (Num 0) (Num 1) (Num 0) empty_server in
  let gen1 := fun _ : oid => 1 # 5 in
  let gen2 := fun _ : oid => 4 # 5 in
  exists v1 v2,
    eval 5 gen1 (objects built.2) (TriOsc._min built.1) = Val v1 /\
    eval 5 gen2 (objects built.2) (TriOsc._min built.1) = Val v2 /\
    (4 # 5 == 1 - (1 # 5) -> v1 == v2) /\
    (1 # 5 < 4 # 5 -> 4 # 5 <= 1 # 2 -> v1 < v2) /\
    (1 # 2 <= 1 # 5 -> 1 # 5 < 4 # 5 -> v2 < v1) /\
    (0 <= 1 # 5 < 1 -> (v1 == -1 <-> 1 # 5 == 0)).
Proof.
  intros built gen1 gen2.
  apply (tri_shape empty_server (Num 200) (Num 0) (Num 1) (Num 0)
           built.1 built.2 gen1 gen2 (1 # 5) (4 # 5)).
  - reflexivity.
  - reflexivity.
  - reflexivity.
Defined.



(** X8.  With a breakpoint sample of 0.5 and the same [mul] and [add]
    samples, a breakpoint oscillator and a triangle oscillator have the
    same [_output] sample at the same phasor sample; the constructors'
    default arguments are such a pair. *)
Theorem brk_half_output_is_triangle
    sv freq phase breakpoint mul add brk sv' gen fuel b x a
    tv tfreq tphase tmul tadd tri tv' tgen tfuel tx ta p :
  BrkPntOsc.__init__ freq phase breakpoint mul add sv = (brk, sv') ->
  TriOsc.__init__ tfreq tphase tmul tadd tv = (tri, tv') ->
  eval_arg fuel gen (objects sv) breakpoint = Val b ->
  eval_arg fuel gen (objects sv) mul = Val x ->
  eval_arg fuel gen (objects sv) add = Val a ->
  eval_arg tfuel tgen (objects tv) tmul = Val tx ->
  eval_arg tfuel tgen (objects tv) tadd = Val ta ->
  b == 1 # 2 -> x == tx -> a == ta ->
  gen (BrkPntOsc._phasor brk) = p ->
  tgen (TriOsc._phasor tri) = p ->
  exists out tout,
    eval (9 + fuel) gen (objects sv') (BrkPntOsc._output brk) = Val out /\
    eval (5 + tfuel) tgen (objects tv') (TriOsc._output tri) = Val tout /\
    out == tout.
Proof.
  intros Hinit Htinit Hb Hx Ha Htx Hta Hhalf Hxx Haa Hp Htp.
  exists (brk_osc p (b * 1 + 0) * x + a), (tri_min p * tx + ta).
  split; [| split].
  - rewrite <- Hp.
    apply (brk_built_output _ _ _ _ _ _ _ _ _ _ _ _ _ Hinit Hb Hx Ha); lra.
  - rewrite <- Htp.
    exact (tri_built_output _ _ _ _ _ _ _ _ _ _ _ Htinit Htx Hta).
  - rewrite brk_osc_half by (rewrite sig_identity; exact Hhalf).
    rewrite Hxx, Haa. reflexivity.
Qed.

Lemma brk_half_output_is_triangle_witness :
  let built :=
    BrkPntOsc.__init__ (Num 100) (Num 0) (Num (1 # 2)) (Num 1) (Num 0)
                       empty_server in
  let tbuilt :=
    TriOsc.__init__ (Num 100) (Num 0) (Num 1) (Num 0) built.2 in
  let gen := fun _ : oid => 7 # 10 in
  exists out tout,
    eval 9 gen (objects built.2) (BrkPntOsc._output built.1) = Val out /\
    eval 5 gen (objects tbuilt.2) (TriOsc._output tbuilt.1) = Val tout /\
    out == tout.
Proof.
  intros built tbuilt gen.
  apply (brk_half_output_is_triangle empty_server (Num 100) (Num 0)
           (Num (1 # 2)) (Num 1) (Num 0) built.1 built.2 gen 0 (1 # 2) 1 0
           built.2 (Num 100) (Num 0) (Num 1) (Num 0) tbuilt.1 tbuilt.2 gen 0
           1 0 (7 # 10)).
  all: reflexivity.
Defined.

(** ** Engines that compute the same *)

Lemma node_value_ext ev ev' g n :
  (forall a, ev a = ev' a) -> node_value ev g n = node_value ev' g n.
Proof.
  intros Hev.
  destruct n; cbn [node_value]; trivial;
    repeat match goal with
           | |- sbind (ev ?a) _ = sbind (ev' ?a) _ =>
               rewrite (Hev a); destruct (ev' a); cbn [sbind]; trivial
           end.
Qed.

(** Objects that deliver the same samples from the same inputs make
    engines that deliver the same samples. *)
Lemma eval_signal_ext gen (os os' : list object) :
  (forall o, option_Forall2 same_signal (obj_node <$> os !! o)
                                        (obj_node <$> os' !! o)) ->
  forall fuel o, eval fuel gen os o = eval fuel gen os' o.
Proof.
  intros Hsame. induction fuel as [| fuel IH]; intros o; [reflexivity |].
  rewrite !eval_unfold. specialize (Hsame o).
  destruct (os !! o) as [ob |], (os' !! o) as [ob' |];
    cbn in Hsame; inversion Hsame as [n n' Hn |]; subst; [| reflexivity].
  rewrite (Hn _ _). apply node_value_ext.
  intros [x | o']; [reflexivity | apply IH].
Qed.

Lemma same_signal_refl n : same_signal n n.
Proof. intros ev g. reflexivity. Qed.

Lemma eval_nodes_ext gen sv sv' :
  nodes_of sv = nodes_of sv' ->
  forall fuel o, eval fuel gen (objects sv) o = eval fuel gen (objects sv') o.
Proof.
  intros Hnodes. apply eval_signal_ext. intros o.
  rewrite <- !list_lookup_fmap. fold (nodes_of sv) (nodes_of sv').
  rewrite Hnodes.
  destruct (nodes_of sv' !! o); constructor. apply same_signal_refl.
Qed.

Lemma nodes_of_ext sv sv' :
  (forall o, node_at sv o = node_at sv' o) -> nodes_of sv = nodes_of sv'.
Proof.
  intros Hnodes. apply list_eq. intros o.
  unfold nodes_of. rewrite !list_lookup_fmap. apply Hnodes.
Qed.

Lemma nodes_of_set_node f o sv :
  nodes_of (set_node f o sv).2 = alter f o (nodes_of sv).
Proof.
  unfold nodes_of. cbn [set_node snd objects].
  apply list_fmap_alter. apply Forall_forall. reflexivity.
Qed.

Lemma nodes_of_for_each_lifecycle {A} (l : list A) body c st tgt sv :
  (forall x, body x = lifecycle (c x) st (tgt x)) ->
  nodes_of (for_each l body sv).2 = nodes_of sv.
Proof.
  intros Hbody. apply nodes_of_ext. intros o.
  now apply (for_each_lifecycle_node body c st tgt).
Qed.

Lemma alter_overwrite {A} (g h : A -> A) i (l : list A) :
  (forall x, g (h x) = g x) -> alter g i (alter h i l) = alter g i l.
Proof.
  intros Hgh. rewrite list_alter_alter_eq.
  apply list_alter_ext; [| reflexivity]. intros x _. apply Hgh.
Qed.

Lemma alter_commute {A} (g h : A -> A) i j (l : list A) :
  (forall x, g (h x) = h (g x)) ->
  alter g i (alter h j l) = alter h j (alter g i l).
Proof.
  intros Hgh. revert i j.
  induction l as [| x l IH]; intros [| i] [| j]; cbn; trivial.
  - now rewrite Hgh.
  - now rewrite IH.
Qed.

(** ** What a constructor leaves alone *)

Lemma extension_keeps_samples (os more : list object) fuel gen o v :
  eval fuel gen os o = Val v -> eval fuel gen (os ++ more) o = Val v.
Proof.
  intros Ho.
  exact (refines_val _ _ _ (eval_refines_app fuel gen _ more o) Ho).
Qed.




(** ** Any sequence of method calls *)

Lemma nodes_of_length sv : length (nodes_of sv) = length (objects sv).
Proof. unfold nodes_of. apply length_fmap. Qed.

Lemma nodes_of_init_brk freq phase breakpoint mul add sv :
  nodes_of (BrkPntOsc.__init__ freq phase breakpoint mul add sv).2 =
  nodes_of sv ++
  BrkPntOsc_nodes (length (nodes_of sv)) freq phase breakpoint mul add.
Proof.
  rewrite BrkPntOsc_init_spec, nodes_of_length. unfold nodes_of.
  cbn [snd objects]. rewrite fmap_app. f_equal.
Qed.


(** The lifecycle methods of both classes keep every node. *)
Lemma BrkPntOsc_lifecycle_nodes self sv :
  (forall dur delay, nodes_of (BrkPntOsc.play self dur delay sv).2 = nodes_of sv) /\
  nodes_of (BrkPntOsc.stop self sv).2 = nodes_of sv /\
  (forall chnl inc dur delay,
     nodes_of (BrkPntOsc.out self chnl inc dur delay sv).2 = nodes_of sv).
Proof.
  unfold BrkPntOsc.play, BrkPntOsc.stop, BrkPntOsc.out,
    PyoObject_play, PyoObject_stop, PyoObject_out.
  split; [| split]; intros; rewrite bind_run; cbn [snd ret].
  - now apply (nodes_of_for_each_lifecycle _ _
                 (fun _ => CallPlay dur delay) Playing id).
  - now apply (nodes_of_for_each_lifecycle _ _ (fun _ => CallStop) Stopped id).
  - apply (nodes_of_for_each_lifecycle _ _
             (fun x => CallOut (chnl + Z.of_nat x.1 * inc) dur delay)
             Outputting snd).
    intros [i o]. reflexivity.
Qed.

Lemma TriOsc_lifecycle_nodes self sv :
  (forall dur delay, nodes_of (TriOsc.play self dur delay sv).2 = nodes_of sv) /\
  nodes_of (TriOsc.stop self sv).2 = nodes_of sv /\
  (forall chnl inc dur delay,
     nodes_of (TriOsc.out self chnl inc dur delay sv).2 = nodes_of sv).
Proof.
  unfold TriOsc.play, TriOsc.stop, TriOsc.out, TriOsc.for_each_PyoObject,
    PyoObject_play, PyoObject_stop, PyoObject_out.
  split; [| split]; intros;
    rewrite bind_run, for_each_isinstance, bind_run; cbn [snd ret].
  - rewrite (nodes_of_for_each_lifecycle _ _
               (fun _ => CallPlay dur delay) Playing id) by reflexivity.
    now apply (nodes_of_for_each_lifecycle _ _
                 (fun _ => CallPlay dur delay) Playing id).
  - rewrite (nodes_of_for_each_lifecycle _ _ (fun _ => CallStop) Stopped id)
      by reflexivity.
    now apply (nodes_of_for_each_lifecycle _ _ (fun _ => CallStop) Stopped id).
  - rewrite (nodes_of_for_each_lifecycle _ _
               (fun x => CallOut (chnl + Z.of_nat x.1 * inc) dur delay)
               Outputting snd) by (intros [i o]; reflexivity).
    now apply (nodes_of_for_each_lifecycle _ _
                 (fun _ => CallPlay dur delay) Playing id).
Qed.

(** The lifecycle methods hand back the instance they were called on. *)
Lemma BrkPntOsc_lifecycle_self self sv :
  (forall dur delay, (BrkPntOsc.play self dur delay sv).1 = self) /\
  (BrkPntOsc.stop self sv).1 = self /\
  (forall chnl inc dur delay,
     (BrkPntOsc.out self chnl inc dur delay sv).1 = self).
Proof.
  unfold BrkPntOsc.play, BrkPntOsc.stop, BrkPntOsc.out,
    PyoObject_play, PyoObject_stop, PyoObject_out.
  split; [| split]; intros; rewrite bind_run; reflexivity.
Qed.

Lemma TriOsc_lifecycle_self self sv :
  (forall dur delay, (TriOsc.play self dur delay sv).1 = self) /\
  (TriOsc.stop self sv).1 = self /\
  (forall chnl inc dur delay, (TriOsc.out self chnl inc dur delay sv).1 = self).
Proof.
  unfold TriOsc.play, TriOsc.stop, TriOsc.out, PyoObject_play,
    PyoObject_stop, PyoObject_out.
  split; [| split]; intros; rewrite !bind_run; reflexivity.
Qed.

Lemma pair_eq_parts {A B} (r : A * B) a b : r = (a, b) -> r.1 = a /\ r.2 = b.
Proof. intros ->. now split. Qed.

(** One call on a breakpoint oscillator whose objects are those of the
    constructor: they are those of the constructor again, for the
    frequency, phase and breakpoint now in force. *)
Lemma BrkPntOsc_do_graph c l0 fq ph bp mul add sv self' sv' :
  nodes_of sv = l0 ++ BrkPntOsc_nodes (length l0) fq ph bp mul add ->
  BrkPntOsc_do c (BrkPntOsc_self (length l0) fq ph mul add) sv = (self', sv') ->
  exists fq' ph',
    self' = BrkPntOsc_self (length l0) fq' ph' mul add /\
    nodes_of sv' =
      l0 ++ BrkPntOsc_nodes (length l0) fq' ph' (last_brkpnt [c] bp) mul add /\
    length (objects sv') = length (objects sv).
Proof.
  intros Hnodes Hdo.
  destruct (BrkPntOsc_lifecycle_nodes
              (BrkPntOsc_self (length l0) fq ph mul add) sv)
    as (Hplay & Hstop & Hout).
  destruct (BrkPntOsc_lifecycle_self
              (BrkPntOsc_self (length l0) fq ph mul add) sv)
    as (Splay & Sstop & Sout).
  apply pair_eq_parts in Hdo as [Hself Hsv].
  destruct c as [x | x | x | dur delay | | chnl inc dur delay];
    cbn [BrkPntOsc_do last_brkpnt] in *.
  - exists x, ph. subst self' sv'.
    unfold BrkPntOsc.setFreq, Phasor_setFreq. rewrite bind_run.
    cbn [fst snd ret BrkPntOsc_self BrkPntOsc._phasor BrkPntOsc._freq].
    split; [reflexivity |]. split.
    + rewrite nodes_of_set_node, Hnodes, alter_app_r. reflexivity.
    + cbn [set_node snd objects]. apply length_alter.
  - exists fq, x. subst self' sv'.
    unfold BrkPntOsc.setPhase, Phasor_setPhase. rewrite bind_run.
    cbn [fst snd ret BrkPntOsc_self BrkPntOsc._phasor BrkPntOsc._phase].
    split; [reflexivity |]. split.
    + rewrite nodes_of_set_node, Hnodes, alter_app_r. reflexivity.
    + cbn [set_node snd objects]. apply length_alter.
  - exists fq, ph. subst self' sv'.
    unfold BrkPntOsc.setBrkPnt, Sig_setValue. rewrite bind_run.
    cbn [fst snd ret BrkPntOsc_self BrkPntOsc._breakpoint].
    split; [reflexivity |]. split.
    + rewrite nodes_of_set_node, Hnodes, alter_app_r. reflexivity.
    + cbn [set_node snd objects]. apply length_alter.
  - exists fq, ph. subst self' sv'.
    rewrite Splay, Hplay, <- !nodes_of_length, Hplay. auto.
  - exists fq, ph. subst self' sv'.
    rewrite Sstop, Hstop, <- !nodes_of_length, Hstop. auto.
  - exists fq, ph. subst self' sv'.
    rewrite Sout, Hout, <- !nodes_of_length, Hout. auto.
Qed.

Lemma last_brkpnt_cons c cs bp :
  last_brkpnt (c :: cs) bp = last_brkpnt cs (last_brkpnt [c] bp).
Proof. destruct c; reflexivity. Qed.

Lemma BrkPntOsc_run_graph cs l0 mul add :
  forall fq ph bp sv self' sv',
    nodes_of sv = l0 ++ BrkPntOsc_nodes (length l0) fq ph bp mul add ->
    BrkPntOsc_run cs (BrkPntOsc_self (length l0) fq ph mul add) sv
      = (self', sv') ->
    exists fq' ph',
      self' = BrkPntOsc_self (length l0) fq' ph' mul add /\
      nodes_of sv' =
        l0 ++ BrkPntOsc_nodes (length l0) fq' ph' (last_brkpnt cs bp) mul add /\
      length (objects sv') = length (objects sv).
Proof.
  induction cs as [| c cs IH]; intros fq ph bp sv self' sv' Hnodes Hrun.
  - cbn in Hrun. injection Hrun as <- <-. exists fq, ph. auto.
  - cbn [BrkPntOsc_run] in Hrun. rewrite bind_run in Hrun.
    destruct (BrkPntOsc_do_graph c l0 fq ph bp mul add sv _ _ Hnodes
                (surjective_pairing _))
      as (fq1 & ph1 & Hself1 & Hnodes1 & Hlen1).
    rewrite Hself1 in Hrun.
    destruct (IH _ _ _ _ _ _ Hnodes1 Hrun) as (fq2 & ph2 & H1 & H2 & H3).
    exists fq2, ph2. rewrite last_brkpnt_cons. repeat split; trivial. congruence.
Qed.

Lemma BrkPntOsc_run_fresh
    sv freq phase breakpoint mul add self sv1 cs self' sv2 :
  BrkPntOsc.__init__ freq phase breakpoint mul add sv = (self, sv1) ->
  BrkPntOsc_run cs self sv1 = (self', sv2) ->
  self' = (BrkPntOsc.__init__ (BrkPntOsc._freq self') (BrkPntOsc._phase self')
             (last_brkpnt cs breakpoint) mul add sv).1 /\
  nodes_of sv2 =
    nodes_of (BrkPntOsc.__init__ (BrkPntOsc._freq self')
                (BrkPntOsc._phase self') (last_brkpnt cs breakpoint)
                mul add sv).2 /\
  length (objects sv2) = length (objects sv1).
Proof.
  intros Hinit Hrun.
  pose proof (nodes_of_init_brk freq phase breakpoint mul add sv) as Hnodes.
  rewrite Hinit in Hnodes. cbn [snd] in Hnodes.
  rewrite BrkPntOsc_init_spec in Hinit. injection Hinit as Hself Hsv.
  rewrite <- nodes_of_length in Hself. rewrite <- Hself in Hrun.
  destruct (BrkPntOsc_run_graph cs _ mul add _ _ _ _ _ _ Hnodes Hrun)
    as (fq' & ph' & -> & Hnodes2 & Hlen).
  cbn [BrkPntOsc_self BrkPntOsc._freq BrkPntOsc._phase].
  clear Hsv Hself Hrun.
  rewrite nodes_of_init_brk, BrkPntOsc_init_spec, <- nodes_of_length.
  cbn [fst]. split; [reflexivity | split; [exact Hnodes2 | exact Hlen]].
Qed.

(** X10.  After any sequence of method calls on a breakpoint oscillator,
    the instance and what every object of the engine computes are what
    the constructor gives for the frequency and phase the instance now
    holds and the breakpoint last set; no object has been created or
    removed. *)
Theorem brk_calls_keep_graph
    sv freq phase breakpoint mul add self sv1 cs self' sv2 :
  BrkPntOsc.__init__ freq phase breakpoint mul add sv = (self, sv1) ->
  BrkPntOsc_run cs self sv1 = (self', sv2) ->
  let fresh :=
    BrkPntOsc.__init__ (BrkPntOsc._freq self') (BrkPntOsc._phase self')
                       (last_brkpnt cs breakpoint) mul add sv in
  self' = fresh.1 /\
  nodes_of sv2 = nodes_of fresh.2 /\
  length (objects sv2) = length (objects sv1).
Proof.
  intros Hinit Hrun fresh. subst fresh.
  exact (BrkPntOsc_run_fresh _ _ _ _ _ _ _ _ _ _ _ Hinit Hrun).
Qed.

Lemma brk_calls_keep_graph_witness :
  let built :=
    BrkPntOsc.__init__ (Num 200) (Num 0) (Num (1 # 2)) (Num 1) (Num 0)
                       empty_server in
  let cs := [BrkSetBrkPnt (Num (1 # 5)); BrkStop; BrkSetFreq (Num 440);
             BrkSetBrkPnt (Num (1 # 3)); BrkOut 0 1 0 0;
             BrkSetPhase (Num (1 # 4))] in
  let ran := BrkPntOsc_run cs built.1 built.2 in
  let fresh :=
    BrkPntOsc.__init__ (BrkPntOsc._freq ran.1) (BrkPntOsc._phase ran.1)
                       (last_brkpnt cs (Num (1 # 2))) (Num 1) (Num 0)
                       empty_server in
  ran.1 = fresh.1 /\
  nodes_of ran.2 = nodes_of fresh.2 /\
  length (objects ran.2) = length (objects built.2).
Proof.
  intros built cs ran.
  apply (brk_calls_keep_graph empty_server (Num 200) (Num 0) (Num (1 # 2))
           (Num 1) (Num 0) built.1 built.2 cs ran.1 ran.2).
  - reflexivity.
  - vm_compute. reflexivity.
Defined.








(** ** How the setters compose *)

Lemma set_node_overwrite g h o sv :
  (forall n, g (h n) = g n) ->
  (set_node g o (set_node h o sv).2).2 = (set_node g o sv).2.
Proof.
  intros Hgh. cbn [set_node snd objects calls]. f_equal.
  apply alter_overwrite. intros ob. cbn. now rewrite Hgh.
Qed.

Lemma set_node_commute g h i j sv :
  (forall n, g (h n) = h (g n)) ->
  (set_node g i (set_node h j sv).2).2 = (set_node h j (set_node g i sv).2).2.
Proof.
  intros Hgh. cbn [set_node snd objects calls]. f_equal.
  apply alter_commute. intros ob. cbn. now rewrite Hgh.
Qed.

(** One step of a proof below: both sides are a pair of an instance and an
    engine reached by two setters of the engine. *)
Ltac setters_step :=
  unfold BrkPntOsc.setFreq, BrkPntOsc.setPhase, BrkPntOsc.setBrkPnt,
    TriOsc.setFreq, TriOsc.setPhase,
    Phasor_setFreq, Phasor_setPhase, Sig_setValue;
  rewrite !bind_run; cbn [fst snd ret];
  cbn [BrkPntOsc._phasor BrkPntOsc._breakpoint BrkPntOsc._freq
       BrkPntOsc._phase TriOsc._phasor TriOsc._freq TriOsc._phase];
  f_equal;
  first [ apply set_node_overwrite | apply set_node_commute ];
  intros []; reflexivity.

(** X13.  A setter called twice leaves what its second call alone leaves,
    and two different setters leave the same instance and engine in
    either order. *)
Theorem setters_compose (brk : BrkPntOsc.t) (tri : TriOsc.t) sv x y :
  (s <- BrkPntOsc.setFreq brk x ;; BrkPntOsc.setFreq s y) sv
    = BrkPntOsc.setFreq brk y sv /\
  (s <- BrkPntOsc.setPhase brk x ;; BrkPntOsc.setPhase s y) sv
    = BrkPntOsc.setPhase brk y sv /\
  (s <- BrkPntOsc.setBrkPnt brk x ;; BrkPntOsc.setBrkPnt s y) sv
    = BrkPntOsc.setBrkPnt brk y sv /\
  (s <- BrkPntOsc.setFreq brk x ;; BrkPntOsc.setPhase s y) sv
    = (s <- BrkPntOsc.setPhase brk y ;; BrkPntOsc.setFreq s x) sv /\
  (s <- BrkPntOsc.setFreq brk x ;; BrkPntOsc.setBrkPnt s y) sv
    = (s <- BrkPntOsc.setBrkPnt brk y ;; BrkPntOsc.setFreq s x) sv /\
  (s <- BrkPntOsc.setPhase brk x ;; BrkPntOsc.setBrkPnt s y) sv
    = (s <- BrkPntOsc.setBrkPnt brk y ;; BrkPntOsc.setPhase s x) sv /\
  (s <- TriOsc.setFreq tri x ;; TriOsc.setFreq s y) sv
    = TriOsc.setFreq tri y sv /\
  (s <- TriOsc.setPhase tri x ;; TriOsc.setPhase s y) sv
    = TriOsc.setPhase tri y sv /\
  (s <- TriOsc.setFreq tri x ;; TriOsc.setPhase s y) sv
    = (s <- TriOsc.setPhase tri y ;; TriOsc.setFreq s x) sv.
Proof.
  repeat split; setters_step.
Qed.

(** ** What the lifecycle methods leave alone *)

Lemma for_each_lifecycle_prefix {A} (l : list A) body c st tgt sv :
  (forall x, body x = lifecycle (c x) st (tgt x)) ->
  calls sv `prefix_of` calls (for_each l body sv).2.
Proof.
  intros Hbody. rewrite (for_each_lifecycle_calls body c st tgt Hbody).
  now apply prefix_app_r.
Qed.

Lemma BrkPntOsc_lifecycle_calls self sv :
  (forall dur delay,
     calls sv `prefix_of` calls (BrkPntOsc.play self dur delay sv).2) /\
  calls sv `prefix_of` calls (BrkPntOsc.stop self sv).2 /\
  (forall chnl inc dur delay,
     calls sv `prefix_of` calls (BrkPntOsc.out self chnl inc dur delay sv).2).
Proof.
  unfold BrkPntOsc.play, BrkPntOsc.stop, BrkPntOsc.out,
    PyoObject_play, PyoObject_stop, PyoObject_out.
  split; [| split]; intros; rewrite bind_run; cbn [snd ret].
  - now apply (for_each_lifecycle_prefix _ _
                 (fun _ => CallPlay dur delay) Playing id).
  - now apply (for_each_lifecycle_prefix _ _ (fun _ => CallStop) Stopped id).
  - apply (for_each_lifecycle_prefix _ _
             (fun x => CallOut (chnl + Z.of_nat x.1 * inc) dur delay)
             Outputting snd).
    intros [i o]. reflexivity.
Qed.

Lemma TriOsc_lifecycle_calls self sv :
  (forall dur delay,
     calls sv `prefix_of` calls (TriOsc.play self dur delay sv).2) /\
  calls sv `prefix_of` calls (TriOsc.stop self sv).2 /\
  (forall chnl inc dur delay,
     calls sv `prefix_of` calls (TriOsc.out self chnl inc dur delay sv).2).
Proof.
  unfold TriOsc.play, TriOsc.stop, TriOsc.out, TriOsc.for_each_PyoObject,
    PyoObject_play, PyoObject_stop, PyoObject_out.
  split; [| split]; intros;
    rewrite bind_run, for_each_isinstance, bind_run; cbn [snd ret].
  - etransitivity;
      [| now apply (for_each_lifecycle_prefix _ _
                      (fun _ => CallPlay dur delay) Playing id)].
    now apply (for_each_lifecycle_prefix _ _
                 (fun _ => CallPlay dur delay) Playing id).
  - etransitivity;
      [| now apply (for_each_lifecycle_prefix _ _
                      (fun _ => CallStop) Stopped id)].
    now apply (for_each_lifecycle_prefix _ _ (fun _ => CallStop) Stopped id).
  - etransitivity;
      [| apply (for_each_lifecycle_prefix _ _
                  (fun x => CallOut (chnl + Z.of_nat x.1 * inc) dur delay)
                  Outputting snd); intros [i o]; reflexivity].
    now apply (for_each_lifecycle_prefix _ _
                 (fun _ => CallPlay dur delay) Playing id).
Qed.

(** X14.  [play], [stop] and [out] of either class hand back the instance
    they were called on, with every attribute as it was, change what no
    object computes, create and remove no object, and only add to the
    record of calls. *)
Theorem lifecycle_keeps_parameters
    (brk : BrkPntOsc.t) (tri : TriOsc.t) sv dur delay chnl inc :
  let kept {T : Type} (self : T) (r : T * server) :=
    r.1 = self /\
    nodes_of r.2 = nodes_of sv /\
    length (objects r.2) = length (objects sv) /\
    calls sv `prefix_of` calls r.2 in
  kept brk (BrkPntOsc.play brk dur delay sv) /\
  kept brk (BrkPntOsc.stop brk sv) /\
  kept brk (BrkPntOsc.out brk chnl inc dur delay sv) /\
  kept tri (TriOsc.play tri dur delay sv) /\
  kept tri (TriOsc.stop tri sv) /\
  kept tri (TriOsc.out tri chnl inc dur delay sv).
Proof.
  intros kept. subst kept. cbn beta.
  destruct (BrkPntOsc_lifecycle_nodes brk sv) as (Np & Ns & No).
  destruct (BrkPntOsc_lifecycle_self brk sv) as (Sp & Ss & So).
  destruct (BrkPntOsc_lifecycle_calls brk sv) as (Cp & Cs & Co).
  destruct (TriOsc_lifecycle_nodes tri sv) as (TNp & TNs & TNo).
  destruct (TriOsc_lifecycle_self tri sv) as (TSp & TSs & TSo).
  destruct (TriOsc_lifecycle_calls tri sv) as (TCp & TCs & TCo).
  repeat split;
    first [ apply Sp | apply Ss | apply So | apply TSp | apply TSs | apply TSo
          | apply Np | apply Ns | apply No | apply TNp | apply TNs | apply TNo
          | apply Cp | apply Cs | apply Co | apply TCp | apply TCs | apply TCo
          | rewrite <- !nodes_of_length;
            first [ now rewrite Np | now rewrite Ns | now rewrite No
                  | now rewrite TNp | now rewrite TNs | now rewrite TNo ] ].
Qed.

(** ** The cascade of the triangle oscillator and the caller's objects *)


Lemma TriOsc_attributes_built n freq phase mul add :
  PyoObject_attributes (TriOsc.__dict__ (TriOsc_self n freq phase mul add)) =
  arg_objects [mul; add; freq; phase] ++
  TriOsc_owned (TriOsc_self n freq phase mul add).
Proof. destruct mul, add, freq, phase; reflexivity. Qed.




(** An object that is no attribute and no base object keeps its state
    through the two phases. *)
Lemma tri_phases_other self sv c1 c2 st1 st2 o :
  o ∉ PyoObject_attributes (TriOsc.__dict__ self) ->
  o ∉ TriOsc._base_objs self ->
  objects
    (for_each (TriOsc._base_objs self) (lifecycle c2 st2)
       (for_each (PyoObject_attributes (TriOsc.__dict__ self))
                 (lifecycle c1 st1) sv).2).2 !! o =
  objects sv !! o.
Proof.
  intros Hattr Hbase.
  rewrite (for_each_lifecycle_other _ (fun _ => c2) st2 id);
    [| reflexivity | now rewrite map_id].
  apply (for_each_lifecycle_other _ (fun _ => c1) st1 id);
    [reflexivity | now rewrite map_id].
Qed.

(** X16.  The cascade misses the one object of a triangle oscillator that
    no attribute refers to: the product [phasor * (-1)] that
    [_inv_phasor] is computed from.  When the caller's arguments are
    objects created before the instance, [play], [stop] and [out] leave
    that object as it is. *)
Theorem tri_cascade_skips_product
    sv0 freq phase mul add self sv1 sv dur delay chnl inc :
  TriOsc.__init__ freq phase mul add sv0 = (self, sv1) ->
  (forall o, Obj o ∈ [mul; add; freq; phase] ->
             (o < length (objects sv0))%nat) ->
  exists product,
    node_at sv1 (TriOsc._inv_phasor self) =
      Some (Arith Add (Obj product) (Num 1)) /\
    node_at sv1 product =
      Some (Arith Mul (Obj (TriOsc._phasor self)) (Num (-1))) /\
    (product ∉ PyoObject_attributes (TriOsc.__dict__ self)) /\
    (product ∉ TriOsc._base_objs self) /\
    objects (TriOsc.play self dur delay sv).2 !! product
      = objects sv !! product /\
    objects (TriOsc.stop self sv).2 !! product = objects sv !! product /\
    objects (TriOsc.out self chnl inc dur delay sv).2 !! product
      = objects sv !! product.
Proof.
  intros Hinit Hargs.
  rewrite TriOsc_init_spec in Hinit. injection Hinit as <- <-.
  set (n := length (objects sv0)) in *.
  set (self := TriOsc_self n freq phase mul add) in *.
  exists (n + 1)%nat.
  assert (Hbase : TriOsc._base_objs self = [(n + 4)%nat]) by reflexivity.
  assert (Hattr : (n + 1)%nat ∉ PyoObject_attributes (TriOsc.__dict__ self)).
  { unfold self. rewrite TriOsc_attributes_built.
    intros [Hin | Hin]%elem_of_app.
    - apply list_elem_of_omap in Hin as (a & Ha & Hobj).
      destruct a as [x | o]; [discriminate |]. injection Hobj as ->.
      specialize (Hargs _ Ha). lia.
    - unfold TriOsc_owned in Hin. cbn [TriOsc_self TriOsc._phasor
        TriOsc._inv_phasor TriOsc._min TriOsc._output] in Hin.
      repeat (apply elem_of_cons in Hin as [Hin | Hin]; [lia |]).
      now apply elem_of_nil in Hin. }
  assert (Hnot : (n + 1)%nat ∉ TriOsc._base_objs self).
  { rewrite Hbase. intros H%list_elem_of_singleton. lia. }
  split; [| split; [| split; [exact Hattr | split; [exact Hnot |]]]].
  - unfold node_at. subst self n.
    cbn [objects TriOsc_self TriOsc._inv_phasor].
    rewrite lookup_new. reflexivity.
  - unfold node_at. subst self n.
    cbn [objects TriOsc_self TriOsc._phasor].
    rewrite lookup_new. reflexivity.
  - rewrite TriOsc_play_run, TriOsc_stop_run,
      (TriOsc_out_run self (n + 4)%nat) by exact Hbase.
    cbn [snd].
    split; [| split]; now apply tri_phases_other.
Qed.

Lemma tri_cascade_skips_product_witness :
  let sv0 := (new Ugen empty_server).2 in
  let built := TriOsc.__init__ (Obj 0) (Num 0) (Num 1) (Num 0) sv0 in
  let self := built.1 in
  let sv := built.2 in
  exists product,
    node_at sv (TriOsc._inv_phasor self) =
      Some (Arith Add (Obj product) (Num 1)) /\
    node_at sv product =
      Some (Arith Mul (Obj (TriOsc._phasor self)) (Num (-1))) /\
    (product ∉ PyoObject_attributes (TriOsc.__dict__ self)) /\
    (product ∉ TriOsc._base_objs self) /\
    objects (TriOsc.play self 0 0 sv).2 !! product = objects sv !! product /\
    objects (TriOsc.stop self sv).2 !! product = objects sv !! product /\
    objects (TriOsc.out self 0 1 0 0 sv).2 !! product = objects sv !! product.
Proof.
  intros sv0 built self sv.
  apply (tri_cascade_skips_product sv0 (Obj 0) (Num 0) (Num 1) (Num 0)
           self sv sv 0 0 0%Z 1%Z).
  - reflexivity.
  - intros o Ho.
    repeat (apply elem_of_cons in Ho as [Ho | Ho];
            [first [discriminate Ho | injection Ho as ->; vm_compute; lia] |]).
    now apply elem_of_nil in Ho.
Defined.

(** ** An instance and the signals around it *)

Lemma nodes_of_started (os : list object) nodes calls0 :
  nodes_of (MkServer (os ++ started nodes) calls0) = (obj_node <$> os) ++ nodes.
Proof.
  unfold nodes_of, started. cbn [objects].
  rewrite fmap_app. f_equal.
  induction nodes as [| nd nodes IH]; [reflexivity |].
  cbn. f_equal. exact IH.
Qed.

(** A sample that a store gives is given by every engine whose nodes
    extend those of the store. *)
Lemma eval_nodes_extension gen sv sv' more fuel o v :
  nodes_of sv' = nodes_of sv ++ more ->
  eval fuel gen (objects sv) o = Val v ->
  eval fuel gen (objects sv') o = Val v.
Proof.
  intros Hnodes Ho.
  rewrite (eval_nodes_ext gen sv'
             (MkServer (objects sv ++ started more) [])).
  - cbn [objects]. now apply extension_keeps_samples.
  - now rewrite nodes_of_started.
Qed.

(** X17.  A signal that has a sample before a breakpoint oscillator is
    constructed has the same sample after the construction and any
    sequence of calls of the oscillator's methods, [setBrkPnt] included. *)
Theorem brk_leaves_other_signals
    sv freq phase breakpoint mul add self sv1 cs self' sv2 fuel gen o v :
  BrkPntOsc.__init__ freq phase breakpoint mul add sv = (self, sv1) ->
  BrkPntOsc_run cs self sv1 = (self', sv2) ->
  eval fuel gen (objects sv) o = Val v ->
  eval fuel gen (objects sv2) o = Val v.
Proof.
  intros Hinit Hrun Ho.
  destruct (BrkPntOsc_run_fresh _ _ _ _ _ _ _ _ _ _ _ Hinit Hrun)
    as (_ & Hnodes & _).
  rewrite nodes_of_init_brk in Hnodes.
  exact (eval_nodes_extension gen sv sv2 _ fuel o v Hnodes Ho).
Qed.

Lemma brk_leaves_other_signals_witness :
  let before :=
    TriOsc.__init__ (Num 50) (Num 0) (Num 1) (Num 0) empty_server in
  let built :=
    BrkPntOsc.__init__ (Num 200) (Num 0) (Num (1 # 2)) (Num 1) (Num 0)
                       before.2 in
  let cs := [BrkSetBrkPnt (Num (1 # 5)); BrkStop; BrkSetFreq (Num 440)] in
  let ran := BrkPntOsc_run cs built.1 built.2 in
  let gen := fun _ : oid => 1 # 4 in
  eval 5 gen (objects ran.2) (TriOsc._output before.1) = Val (0 # 4).
Proof.
  intros before built cs ran gen.
  apply (brk_leaves_other_signals before.2 (Num 200) (Num 0) (Num (1 # 2))
           (Num 1) (Num 0) built.1 built.2 cs ran.1 ran.2 5 gen
           (TriOsc._output before.1) (0 # 4)).
  - reflexivity.
  - vm_compute. reflexivity.
  - vm_compute. reflexivity.
Defined.



(** ** Stopping and starting again *)






